(** * twython-kafka: the polling loop of [run.py]

    A shallow embedding of [main], [init_twitter_api] and [process_entry]
    of [run.py], and the properties of the polling, retry and pagination
    logic that follow from the code.

    Conventions.
    - A tweet ("status") is a Python dict: its scalar fields are a
      [gmap string atom]; the value under ["user"], when the key is there,
      is an object (a [gmap string atom]) or a scalar such as null.  A key
      that is absent raises [KeyError], as [status["created_at"]] does in
      Python; subscripting a scalar raises [TypeError].
    - The upstream API is a script: the list of outcomes of the successive
      calls of [twitter.search].  The loop consumes one outcome per
      iteration; a run whose script ends while the loop still wants to
      query is [Pending].
    - Kafka, the JSON file, the logger and [time.sleep] are recorded in the
      state as lists of what was sent, written, logged and slept.
    - The progress report of [main] (the [dt > 10] test) reads the wall
      clock and writes one info line; it touches no variable the loop
      tests and is left out.  Re-acquiring a credential after a 429 is
      counted in [acquired]: the loop is followed on the runs in which that
      call returns, and what the call itself logs and sleeps is in the
      trace of [init_twitter_api], not in [log] and [slept]. *)

From Stdlib Require Import ZArith String Ascii List Bool Lia.
From stdpp Require Import base option list gmap strings pretty.
Import ListNotations.

Local Open Scope string_scope.
Local Open Scope list_scope.
Local Open Scope Z_scope.

(** ** Python values *)

(** The scalar JSON values that occur as fields of a status. *)
Inductive atom :=
  | ANone
  | AInt (n : Z)
  | AStr (s : string).

#[global] Instance atom_eq_dec : EqDecision atom.
Proof. solve_decision. Defined.

(** What a status holds under ["user"]: an object, or a scalar (a null
    user, for one). *)
Inductive user_value :=
  | UserScalar (a : atom)
  | UserObject (d : gmap string atom).

#[global] Instance user_value_eq_dec : EqDecision user_value.
Proof. solve_decision. Defined.

(** A status as returned in the ["statuses"] list. *)
Record status := Status {
  fields : gmap string atom;
  user : option user_value
}.

#[global] Instance status_eq_dec : EqDecision status.
Proof. solve_decision. Defined.

(** Exceptions that reach the [except Exception as e] clause of [main]. *)
Inductive exn :=
  | KeyError (key : string)
  | TypeError (msg : string)
  | TwythonError (msg : string).

(** [str(e)]: a [KeyError] prints the repr of its key. *)
Definition str_exn (e : exn) : string :=
  match e with
  | KeyError k => "'" +:+ k +:+ "'"
  | TypeError m => m
  | TwythonError m => m
  end.

(** Python truthiness, as tested by [if x] and [x and y]. *)
Definition truthy (a : atom) : bool :=
  match a with
  | ANone => false
  | AInt n => negb (n =? 0)
  | AStr s => negb (String.eqb s EmptyString)
  end.

Definition type_name (a : atom) : string :=
  match a with
  | ANone => "NoneType"
  | AInt _ => "int"
  | AStr _ => "str"
  end.

(** [str(x)], which is what [%s] formats. *)
Definition py_str (a : atom) : string :=
  match a with
  | ANone => "None"
  | AInt n => pretty n
  | AStr s => s
  end.

(** [d[k]] on a dict. *)
Definition getitem (d : gmap string atom) (k : string) : exn + atom :=
  match d !! k with
  | Some v => inr v
  | None => inl (KeyError k)
  end.

(** [x - 1]. *)
Definition sub1 (a : atom) : exn + Z :=
  match a with
  | AInt n => inr (n - 1)
  | _ => inl (TypeError ("unsupported operand type(s) for -: '"
                          +:+ type_name a +:+ "' and 'int'"))
  end.

(** [str.encode(x)]: only a [str] can be encoded. *)
Definition str_encode (a : atom) : exn + string :=
  match a with
  | AStr s => inr s
  | _ => inl (TypeError ("descriptor 'encode' for 'str' objects doesn't apply to a '"
                          +:+ type_name a +:+ "' object"))
  end.

(** [x["screen_name"]] on a value that is not an object. *)
Definition subscript_error (a : atom) : exn :=
  match a with
  | AStr _ => TypeError "string indices must be integers"
  | _ => TypeError ("'" +:+ type_name a +:+ "' object is not subscriptable")
  end.

(** [x in s] on strings. *)
Fixpoint contains (needle hay : string) : bool :=
  String.prefix needle hay ||
  match hay with
  | EmptyString => false
  | String _ rest => contains needle rest
  end.

(** ** [process_entry] *)

Record envelope := Envelope {
  env_id : atom;
  env_url : string
}.

#[global] Instance envelope_eq_dec : EqDecision envelope.
Proof. solve_decision. Defined.

Definition process_entry (entry : status) : exn + envelope :=
  match getitem (fields entry) "id_str" with
  | inl e => inl e
  | inr id_str =>
    match user entry with
    | None => inl (KeyError "user")
    | Some (UserScalar a) => inl (subscript_error a)
    | Some (UserObject u) =>
      match getitem u "screen_name" with
      | inl e => inl e
      | inr screen_name =>
        (* the second %s looks the key up again *)
        match getitem (fields entry) "id_str" with
        | inl e => inl e
        | inr id_str' =>
          inr {| env_id := id_str;
                 env_url := "https://twitter.com/" +:+ py_str screen_name
                            +:+ "/status/" +:+ py_str id_str' |}
        end
      end
    end
  end.

Definition alice_42 : status :=
  {| fields := {[ "id_str" := AStr "42" ]};
     user := Some (UserObject {[ "screen_name" := AStr "alice" ]}) |}.

(** ** [main]: arguments, state and outcome *)

(** The arguments [main] reads.  [limit], [max_id] and [since_id] are the
    [type=int, default=0] options of [get_args]. *)
Record Arguments := {
  kafka_brokers : option string;
  topic : string;
  output_json : option string;
  arg_limit : Z;
  arg_max_id : Z;
  arg_since_id : Z
}.

(** [if args.kafka_brokers]: [None] and the empty string are falsy. *)
Definition is_set (o : option string) : bool :=
  match o with
  | Some s => negb (String.eqb s EmptyString)
  | None => false
  end.

Inductive log_entry :=
  | ErrorInvalidDocument (st : status)
  | WarningSleeping (msg : string)
  | WarningMaxRetries (msg : string)
  | WarningSkipping (msg : string)
  | InfoTotal (n : Z).

(** One outcome of [twitter.search(...)["statuses"]]. *)
Inductive response :=
  | Statuses (page : list status)
  | Fails (msg : string).

(** The local variables of [main] and what it has done to the outside. *)
Record state := State {
  max_id : Z;
  captured : Z;
  finished : bool;
  retries : Z;
  results : list status;
  sent : list (string * string * envelope);
  written : list status;
  log : list log_entry;
  slept : list Z;
  queries : list Z;
  acquired : nat
}.

Definition set_max_id (v : Z) (s : state) : state :=
  State v (captured s) (finished s) (retries s) (results s) (sent s)
        (written s) (log s) (slept s) (queries s) (acquired s).
Definition set_captured (v : Z) (s : state) : state :=
  State (max_id s) v (finished s) (retries s) (results s) (sent s)
        (written s) (log s) (slept s) (queries s) (acquired s).
Definition set_finished (v : bool) (s : state) : state :=
  State (max_id s) (captured s) v (retries s) (results s) (sent s)
        (written s) (log s) (slept s) (queries s) (acquired s).
Definition set_retries (v : Z) (s : state) : state :=
  State (max_id s) (captured s) (finished s) v (results s) (sent s)
        (written s) (log s) (slept s) (queries s) (acquired s).
Definition set_results (v : list status) (s : state) : state :=
  State (max_id s) (captured s) (finished s) (retries s) v (sent s)
        (written s) (log s) (slept s) (queries s) (acquired s).
Definition add_sent (v : string * string * envelope) (s : state) : state :=
  State (max_id s) (captured s) (finished s) (retries s) (results s)
        (sent s ++ [v]) (written s) (log s) (slept s) (queries s) (acquired s).
Definition add_written (v : status) (s : state) : state :=
  State (max_id s) (captured s) (finished s) (retries s) (results s) (sent s)
        (written s ++ [v]) (log s) (slept s) (queries s) (acquired s).
Definition add_log (v : log_entry) (s : state) : state :=
  State (max_id s) (captured s) (finished s) (retries s) (results s) (sent s)
        (written s) (log s ++ [v]) (slept s) (queries s) (acquired s).
Definition add_slept (v : Z) (s : state) : state :=
  State (max_id s) (captured s) (finished s) (retries s) (results s) (sent s)
        (written s) (log s) (slept s ++ [v]) (queries s) (acquired s).
Definition add_query (v : Z) (s : state) : state :=
  State (max_id s) (captured s) (finished s) (retries s) (results s) (sent s)
        (written s) (log s) (slept s) (queries s ++ [v]) (acquired s).
Definition add_acquired (s : state) : state :=
  State (max_id s) (captured s) (finished s) (retries s) (results s) (sent s)
        (written s) (log s) (slept s) (queries s) (S (acquired s)).

(** The state at the head of the loop: [max_id = args.max_id],
    [captured = 0], [results = []], one credential acquired. *)
Definition init_state (args : Arguments) : state :=
  State (arg_max_id args) 0 false 0 [] [] [] [] [] [] 1.

Definition max_retries : Z := 3.

(** ** The body of the [for status in results] loop *)

(** What one pass through the body does to the control flow. *)
Inductive flow :=
  | Next (s : state)
  | Break (s : state)
  | Raise (e : exn) (s : state).

(** [status["id"] and status["created_at"]]: the second key is only looked
    up when the first value is truthy. *)
Definition is_valid (st : status) : exn + bool :=
  match getitem (fields st) "id" with
  | inl e => inl e
  | inr i =>
    if truthy i then
      match getitem (fields st) "created_at" with
      | inl e => inl e
      | inr c => inr (truthy c)
      end
    else inr false
  end.

(** [producer.send(args.topic, process_entry(status),
                   key=str.encode(status["id_str"]))]. *)
Definition kafka_send (args : Arguments) (st : status) (s : state) : exn + state :=
  match process_entry st with
  | inl e => inl e
  | inr v =>
    match getitem (fields st) "id_str" with
    | inl e => inl e
    | inr k =>
      match str_encode k with
      | inl e => inl e
      | inr key => inr (add_sent (topic args, key, v) s)
      end
    end
  end.

(** The two sinks, then [captured += 1]. *)
Definition forward (args : Arguments) (st : status) (s : state) : exn + state :=
  match (if is_set (kafka_brokers args) then kafka_send args st s else inr s) with
  | inl e => inl e
  | inr s1 =>
    let s2 := if is_set (output_json args) then add_written st s1 else s1 in
    inr (set_captured (captured s2 + 1) s2)
  end.

Definition cond1 (args : Arguments) (s : state) : bool :=
  negb (arg_limit args =? 0) && (arg_limit args <=? captured s).
Definition cond2 (args : Arguments) (s : state) : bool :=
  negb (arg_max_id args =? 0) && (arg_max_id args <=? max_id s).
Definition cond3 (args : Arguments) (s : state) : bool :=
  negb (arg_since_id args =? 0) && (max_id s <=? arg_since_id args).

(** [if cond1 or cond2 or cond3: finished = True; break]. *)
Definition check_limits (args : Arguments) (s : state) : flow :=
  if cond1 args s || cond2 args s || cond3 args s
  then Break (set_finished true s)
  else Next s.

Definition process_status (args : Arguments) (st : status) (s : state) : flow :=
  match getitem (fields st) "id" with
  | inl e => Raise e s
  | inr i =>
    match sub1 i with
    | inl e => Raise e s
    | inr m =>
      let s := set_max_id m s in
      match is_valid st with
      | inl e => Raise e s
      | inr true =>
        match forward args st s with
        | inl e => Raise e s
        | inr s' => check_limits args s'
        end
      | inr false => check_limits args (add_log (ErrorInvalidDocument st) s)
      end
    end
  end.

Fixpoint process_page (args : Arguments) (page : list status) (s : state) : flow :=
  match page with
  | [] => Next s
  | st :: rest =>
    match process_status args st s with
    | Next s' => process_page args rest s'
    | other => other
    end
  end.

(** ** The [while not finished] loop *)

Inductive failure_class := RateLimited | Transient | Permanent | Unclassified.

Definition classify (msg : string) : failure_class :=
  if contains "429 (Too Many Requests)" msg then RateLimited
  else if contains "500 (Internal Server Error)" msg
          || contains "503 (Service Unavailable)" msg then Transient
  else if contains "401 (Unauthorized)" msg
          || contains "403 (Forbidden)" msg
          || contains "404 (Not Found)" msg then Permanent
  else Unclassified.

Inductive outcome :=
  | Returned (s : state)
  | Crashed (e : exn) (s : state)
  | Pending (s : state).

Definition final_state (o : outcome) : state :=
  match o with
  | Returned s | Crashed _ s | Pending s => s
  end.

(** After the loop: [log.info(f"Total of {captured} captured tweet(s).")]. *)
Definition finish (s : state) : outcome :=
  Returned (add_log (InfoTotal (captured s)) s).

(** The [except Exception as e] clause; [continue] is the rest of the
    loop.  After a 429 the clause calls [init_twitter_api]: the loop is
    followed from the return of that call, which is counted, and the
    call's own log lines and sleeps are those of [init_twitter_api]. *)
Definition handle (e : exn) (s : state) (continue : state -> outcome) : outcome :=
  match classify (str_exn e) with
  | RateLimited => continue (add_acquired s)
  | Transient =>
    if retries s =? max_retries
    then finish (set_retries 0 (add_log (WarningMaxRetries (str_exn e)) s))
    else continue (add_slept 60 (add_log (WarningSleeping (str_exn e)) s))
  | Permanent => finish (add_log (WarningSkipping (str_exn e)) s)
  | Unclassified => Crashed e s
  end.

Fixpoint main_loop (args : Arguments) (script : list response) (s : state) : outcome :=
  if finished s then finish s else
  match script with
  | [] => Pending s
  | r :: script' =>
    let previous_results := results s in
    let s := add_query (max_id s) (set_retries 0 s) in
    match r with
    | Fails msg => handle (TwythonError msg) s (main_loop args script')
    | Statuses page =>
      let s := set_results page s in
      if bool_decide (page = []) || bool_decide (previous_results = page)
      then finish (set_finished true s)
      else
        match process_page args page s with
        | Next s' => main_loop args script' s'
        | Break s' => main_loop args script' s'
        | Raise e s' => handle e s' (main_loop args script')
        end
    end
  end.

Definition main (args : Arguments) (script : list response) : outcome :=
  main_loop args script (init_state args).

(** ** [init_twitter_api] *)

(** [client_id] and [client_secret] as passed: nothing, one string, or a
    list of strings. *)
Inductive cred_arg :=
  | CredNone
  | CredStr (s : string)
  | CredList (l : list string).

(** [if isinstance(c, str): c = [c]]; a falsy argument counts as no
    credential. *)
Definition as_list (c : cred_arg) : list string :=
  match c with
  | CredNone => []
  | CredStr s => [s]
  | CredList l => l
  end.

(** What authenticating one credential and reading its rate-limit status
    gives: the quota (requests [remaining], the [reset] epoch, and the
    clock [int(time.time())] read at that moment), a
    [TwythonRateLimitError], or any other exception. *)
Inductive probe :=
  | Quota (remaining : N) (reset : Z) (now : Z)
  | RateLimitError
  | OtherError (msg : string).

Inductive init_event :=
  | Authenticated (remaining : N)
  | Warned (msg : string)
  | ZeroLeft (tts : Z)
  | Sleep (tts : Z).

(** The variables one pass of the [for] loop leaves behind. *)
Record pass_result := PassResult {
  returned : option nat;
  remaining_after : N;
  tts_after : Z;
  events : list init_event
}.

(** [client_secret[i]] raises [IndexError] past the end of the list. *)
Definition probe_credential (answer : nat -> probe) (n_secrets i : nat) : probe :=
  if (i <? n_secrets)%nat then answer i
  else OtherError "list index out of range".

(** [for i in range(len(client_id))]. *)
Fixpoint probe_all (answer : nat -> probe) (n_secrets : nat) (idx : list nat)
    (remaining : N) (tts : Z) (tr : list init_event) : pass_result :=
  match idx with
  | [] => PassResult None remaining tts tr
  | i :: idx' =>
    match probe_credential answer n_secrets i with
    | Quota r reset now =>
      let reset := reset - now + 1 in
      if negb (r =? 0)%N then PassResult (Some i) r tts (tr ++ [Authenticated r])
      else if reset <? tts then probe_all answer n_secrets idx' r reset tr
      else probe_all answer n_secrets idx' r tts tr
    | RateLimitError => probe_all answer n_secrets idx' remaining tts tr
    | OtherError msg => probe_all answer n_secrets idx' remaining tts (tr ++ [Warned msg])
    end
  end.

Inductive init_result :=
  | Got (i : nat) (tr : list init_event)
  | Failed (msg : string) (tr : list init_event)
  | Waiting (tr : list init_event).

(** [while True], one pass per unit of fuel; [world p i] is what probing
    credential [i] gives in pass [p].  [time.sleep] refuses a negative
    length. *)
Fixpoint init_loop (world : nat -> nat -> probe) (ids secrets : list string)
    (fuel pass : nat) (remaining : N) (tr : list init_event) : init_result :=
  match fuel with
  | O => Waiting tr
  | S fuel' =>
    let r := probe_all (world pass) (length secrets) (seq 0 (length ids))
                       remaining 900 tr in
    match returned r with
    | Some i => Got i (events r)
    | None =>
      if (remaining_after r =? 0)%N then
        let tr' := events r ++ [ZeroLeft (tts_after r)] in
        if tts_after r <? 0
        then Failed "sleep length must be non-negative" tr'
        else init_loop world ids secrets fuel' (S pass) (remaining_after r)
                       (tr' ++ [Sleep (tts_after r)])
      else init_loop world ids secrets fuel' (S pass) (remaining_after r) (events r)
    end
  end.

Definition init_twitter_api (world : nat -> nat -> probe)
    (client_id client_secret : cred_arg) (fuel : nat) : init_result :=
  let ids := as_list client_id in
  let secrets := as_list client_secret in
  if bool_decide (ids = []) || bool_decide (secrets = [])
  then Failed "Missing CLIENT_ID and CLIENT_SECRET for Twitter API authentication." []
  else init_loop world ids secrets fuel 0 0%N [].

(** ** Sample inputs *)

(** A well-formed tweet of user [bob] with the given id and creation
    time. *)
Definition tweet (i : Z) (created_at : string) : status :=
  {| fields := {[ "id" := AInt i; "created_at" := AStr created_at;
                  "id_str" := AStr (pretty i) ]};
     user := Some (UserObject {[ "screen_name" := AStr "bob" ]}) |}.

(** The same tweet without its ["created_at"] key. *)
Definition tweet_without_created_at (i : Z) : status :=
  {| fields := {[ "id" := AInt i; "id_str" := AStr (pretty i) ]};
     user := Some (UserObject {[ "screen_name" := AStr "bob" ]}) |}.

(** Arguments with a broker, no output file, and the three bounds given. *)
Definition args_with (limit max since : Z) : Arguments :=
  {| kafka_brokers := Some "localhost:9092"; topic := "ingest.twitter";
     output_json := None;
     arg_limit := limit; arg_max_id := max; arg_since_id := since |}.

(** ** Notions used in the statements *)

(** The id of a record, when it has an integer one. *)
Definition status_id (st : status) : option Z :=
  match fields st !! "id" with
  | Some (AInt n) => Some n
  | _ => None
  end.

Definition ids_of (page : list status) : list Z := omap status_id page.

(** The smallest element of a list of integers. *)
Definition minimum (l : list Z) : option Z :=
  match l with
  | [] => None
  | x :: l' => Some (foldr Z.min x l')
  end.

Definition flow_state (f : flow) : state :=
  match f with
  | Next s | Break s | Raise _ s => s
  end.

(** The state in which the body of the loop runs on a fetched page:
    [retries = 0], the query recorded, [results] assigned. *)
Definition fetched (page : list status) (s : state) : state :=
  set_results page (add_query (max_id s) (set_retries 0 s)).

(** The smallest wait [reset - now + 1] among the credentials that
    answered with a quota, and 900 when there is none. *)
Definition minimum_wait (answer : nat -> probe) (idx : list nat) : Z :=
  foldr (fun i acc =>
           match answer i with
           | Quota _ reset now => Z.min (reset - now + 1) acc
           | _ => acc
           end) 900 idx.

(** Every record of every page the upstream answers with. *)
Definition all_statuses (script : list response) : list status :=
  concat (omap (fun r => match r with
                         | Statuses page => Some page
                         | Fails _ => None
                         end) script).

(** What a message published to Kafka looks like: sent to the configured
    topic, keyed by the text of the record's id, carrying the envelope of
    that id. *)
Definition well_published (args : Arguments)
    (m : string * string * envelope) : Prop :=
  let '(t, key, v) := m in
  t = topic args /\ env_id v = AStr key /\
  exists name, env_url v = "https://twitter.com/" +:+ name +:+ "/status/" +:+ key.

(** [captured] counts what went to each configured sink; a sink that is not
    configured receives nothing. *)
Definition sinks_agree (args : Arguments) (s : state) : Prop :=
  (if is_set (kafka_brokers args)
   then Z.of_nat (length (sent s)) = captured s else sent s = []) /\
  (if is_set (output_json args)
   then Z.of_nat (length (written s)) = captured s else written s = []).

(** The exceptions the body of the loop can raise on a record. *)
Definition record_errors : list exn :=
  [ KeyError "id"; KeyError "created_at"; KeyError "id_str"; KeyError "user";
    KeyError "screen_name";
    TypeError "'NoneType' object is not subscriptable";
    TypeError "'int' object is not subscriptable";
    TypeError "string indices must be integers";
    TypeError "unsupported operand type(s) for -: 'NoneType' and 'int'";
    TypeError "unsupported operand type(s) for -: 'str' and 'int'";
    TypeError "descriptor 'encode' for 'str' objects doesn't apply to a 'NoneType' object";
    TypeError "descriptor 'encode' for 'str' objects doesn't apply to a 'int' object" ].

(** An answer that the handler treats as a transient failure. *)
Definition is_transient (r : response) : bool :=
  match r with
  | Fails msg => match classify msg with Transient => true | _ => false end
  | Statuses _ => false
  end.

(** The number of answers of the script that are transient failures. *)
Definition transient_count (script : list response) : nat :=
  length (List.filter is_transient script).

(** [needle] occurs somewhere in [hay]. *)
Definition occurs (needle hay : string) : Prop :=
  exists pre post, hay = pre +:+ needle +:+ post.

(** What [init_twitter_api] logged and slept, however it ended. *)
Definition trace_of (r : init_result) : list init_event :=
  match r with
  | Got _ tr | Failed _ tr | Waiting tr => tr
  end.

(** The lengths of the sleeps in a trace, in order. *)
Definition sleeps (tr : list init_event) : list Z :=
  omap (fun ev => match ev with Sleep t => Some t | _ => None end) tr.

(** A sleep of [init_twitter_api] that is neither negative nor longer than
    the 900 seconds of a rate-limit window. *)
Definition within_window (ev : init_event) : Prop :=
  match ev with
  | Sleep t => 0 <= t <= 900
  | _ => True
  end.

(** The cursor a page leaves behind when it is processed to its end: the
    id of its last record, minus one. *)
Definition cursor_after (page : list status) : option Z :=
  match last page with
  | Some st => match status_id st with
               | Some n => Some (n - 1)
               | None => None
               end
  | None => None
  end.




(** ** Basic facts about the loop body *)

Ltac unfold_setters :=
  unfold set_max_id, set_captured, set_finished, set_retries, set_results,
    add_sent, add_written, add_log, add_slept, add_query, add_acquired in *.

Ltac simpl_state :=
  unfold_setters;
  cbn [max_id captured finished retries results sent written log slept
       queries acquired] in *.

Lemma check_limits_next args s s' :
  check_limits args s = Next s' ->
  s' = s /\ cond1 args s = false /\ cond2 args s = false /\ cond3 args s = false.
Proof.
  unfold check_limits.
  destruct (cond1 args s), (cond2 args s), (cond3 args s); cbn; intros H;
    inversion H; auto.
Qed.

Lemma check_limits_break args s s' :
  check_limits args s = Break s' ->
  s' = set_finished true s /\ cond1 args s || cond2 args s || cond3 args s = true.
Proof.
  unfold check_limits.
  destruct (cond1 args s || cond2 args s || cond3 args s); intros H;
    inversion H; auto.
Qed.

Lemma check_limits_not_raise args s e s' : check_limits args s <> Raise e s'.
Proof. unfold check_limits. destruct (_ || _); discriminate. Qed.

Lemma kafka_send_effect args st s s' :
  kafka_send args st s = inr s' ->
  exists k v, s' = add_sent (topic args, k, v) s.
Proof.
  unfold kafka_send. intros H.
  destruct (process_entry st) as [e|v]; [discriminate|].
  destruct (getitem (fields st) "id_str") as [e|k]; [discriminate|].
  destruct (str_encode k) as [e|key]; [discriminate|].
  inversion H. eauto.
Qed.

Lemma forward_effect args st s s' :
  forward args st s = inr s' ->
  captured s' = captured s + 1 /\ max_id s' = max_id s /\
  finished s' = finished s /\ results s' = results s.
Proof.
  unfold forward. intros H.
  destruct (is_set (kafka_brokers args)).
  - destruct (kafka_send args st s) as [e|s1] eqn:Hk; [discriminate|].
    apply kafka_send_effect in Hk as (k & v & ->).
    destruct (is_set (output_json args)); inversion H; simpl_state; auto.
  - destruct (is_set (output_json args)); inversion H; simpl_state; auto.
Qed.

(** Every pass through the body either raises, leaving the counters as
    they were, or ends in [check_limits] on a state whose [captured] grew
    by at most one. *)
Lemma process_status_inv args st s :
  (exists e s', process_status args st s = Raise e s' /\
     captured s' = captured s /\ finished s' = finished s /\
     results s' = results s) \/
  (exists s1, process_status args st s = check_limits args s1 /\
     (captured s1 = captured s \/ captured s1 = captured s + 1) /\
     finished s1 = finished s /\ results s1 = results s).
Proof.
  unfold process_status.
  destruct (getitem (fields st) "id") as [e|i]; [left; eauto 7|].
  destruct (sub1 i) as [e|m]; [left; eauto 7|].
  destruct (is_valid st) as [e|[|]].
  - left. eexists _, _. split; [reflexivity|]. simpl_state. auto.
  - destruct (forward args st (set_max_id m s)) as [e|s1] eqn:Hf.
    + left. eexists _, _. split; [reflexivity|]. simpl_state. auto.
    + right. exists s1. apply forward_effect in Hf. simpl_state.
      intuition.
  - right. eexists. split; [reflexivity|]. simpl_state. auto.
Qed.

Lemma process_page_break args st rest s s' :
  process_status args st s = Break s' ->
  process_page args (st :: rest) s = Break s'.
Proof. intros H. cbn. rewrite H. reflexivity. Qed.

Lemma main_loop_finished args script s :
  finished s = true -> main_loop args script s = finish s.
Proof. intros H. destruct script; cbn; rewrite H; reflexivity. Qed.

(** One iteration on a page that is neither empty nor the previous one. *)
Lemma main_loop_page_step args page script s :
  finished s = false -> page <> [] -> page <> results s ->
  main_loop args (Statuses page :: script) s
  = match process_page args page (fetched page s) with
    | Next s' => main_loop args script s'
    | Break s' => main_loop args script s'
    | Raise e s' => handle e s' (main_loop args script)
    end.
Proof.
  intros Hf Hne Hnr. cbn [main_loop]. rewrite Hf.
  rewrite bool_decide_eq_false_2 by exact Hne.
  rewrite bool_decide_eq_false_2 by congruence.
  reflexivity.
Qed.

(** ** The capture limit *)


Lemma cond1_true args s :
  arg_limit args <> 0 -> arg_limit args <= captured s -> cond1 args s = true.
Proof.
  unfold cond1. intros Hn H.
  destruct (Z.eqb_spec (arg_limit args) 0); [contradiction|].
  cbn. apply Z.leb_le. exact H.
Qed.










Example limit_two_stops_mid_page :
  exists s,
    main (args_with 2 0 0)
         [Statuses [tweet 100 "Mon"; tweet 90 "Tue"; tweet 80 "Wed"];
          Statuses [tweet 70 "Thu"]] = Returned s /\
    captured s = 2 /\ length (sent s) = 2%nat /\ queries s = [0] /\
    max_id s = 89.
Proof. eexists. split; [vm_compute; reflexivity|]. cbn. auto. Qed.

(** ** The envelope *)

Example process_entry_alice :
  process_entry alice_42
  = inr {| env_id := AStr "42"; env_url := "https://twitter.com/alice/status/42" |}.
Proof. vm_compute. reflexivity. Qed.

(** Against C9 as stated: a record that passes the validity test of the
    loop, having an id and a creation time, but carries no ["id_str"], has
    no envelope: [process_entry] raises. *)
Lemma valid_record_without_envelope_counterexample :
  let st := {| fields := {[ "id" := AInt 7; "created_at" := AStr "Tue" ]};
               user := Some (UserObject {[ "screen_name" := AStr "bob" ]}) |} in
  is_valid st = inr true /\ process_entry st = inl (KeyError "id_str").
Proof. cbv zeta. split; vm_compute; reflexivity. Qed.

(** C9 (amended). [process_entry] gives an envelope exactly for the records
    that have an ["id_str"] and a ["user"] object with a ["screen_name"],
    and the envelope is then determined: its id is the ["id_str"] value and
    its url is https://twitter.com/<screen_name>/status/<id_str>.  The
    record of alice with id_str 42 is the instance below. *)
Theorem process_entry_envelope (entry : status) (v : envelope) :
  process_entry entry = inr v <->
  exists i u name,
    fields entry !! "id_str" = Some i /\
    user entry = Some (UserObject u) /\
    u !! "screen_name" = Some name /\
    v = {| env_id := i;
           env_url := "https://twitter.com/" +:+ py_str name
                      +:+ "/status/" +:+ py_str i |}.
Proof.
  unfold process_entry, getitem. split.
  - intros H.
    destruct (fields entry !! "id_str") as [i|] eqn:Hi; [|discriminate].
    destruct (user entry) as [[a|u]|] eqn:Hu; try discriminate.
    destruct (u !! "screen_name") as [name|] eqn:Hn; [|discriminate].
    inversion H. exists i, u, name. repeat split. exact Hn.
  - intros (i & u & name & Hi & Hu & Hn & ->).
    rewrite Hi, Hu, Hn. reflexivity.
Qed.

Lemma process_entry_envelope_witness :
  process_entry alice_42
  = inr {| env_id := AStr "42";
           env_url := "https://twitter.com/alice/status/42" |}.
Proof.
  apply (proj2 (process_entry_envelope alice_42
           {| env_id := AStr "42";
              env_url := "https://twitter.com/alice/status/42" |})).
  exists (AStr "42"), {[ "screen_name" := AStr "alice" ]}, (AStr "alice").
  repeat split.
Defined.

(** ** Bounds left at zero *)

(** C10. A bound left at 0 is switched off: its condition is false whatever
    [captured] and the cursor are, and when the body of the loop does
    break, a bound that is not 0 has been reached. *)
Theorem zero_bound_is_disabled args s :
  (arg_limit args = 0 -> cond1 args s = false) /\
  (arg_max_id args = 0 -> cond2 args s = false) /\
  (arg_since_id args = 0 -> cond3 args s = false) /\
  (forall st s',
     process_status args st s = Break s' ->
     (arg_limit args <> 0 /\ arg_limit args <= captured s') \/
     (arg_max_id args <> 0 /\ arg_max_id args <= max_id s') \/
     (arg_since_id args <> 0 /\ max_id s' <= arg_since_id args)).
Proof.
  repeat split.
  - intros H. unfold cond1. rewrite H. reflexivity.
  - intros H. unfold cond2. rewrite H. reflexivity.
  - intros H. unfold cond3. rewrite H. reflexivity.
  - intros st s' Hb.
    destruct (process_status_inv args st s)
      as [(e & s2 & He & _)|(s1 & Hs1 & _)]; [congruence|].
    rewrite Hs1 in Hb. apply check_limits_break in Hb as (-> & Hc).
    simpl_state. unfold cond1, cond2, cond3 in Hc.
    apply orb_true_iff in Hc as [Hc|Hc]; [apply orb_true_iff in Hc as [Hc|Hc]|];
      apply andb_true_iff in Hc as [Hn Hl];
      apply negb_true_iff in Hn; apply Z.eqb_neq in Hn; apply Z.leb_le in Hl;
      auto.
Qed.

Lemma zero_bound_is_disabled_witness :
  let args := args_with 0 0 0 in
  let s := set_max_id (-5000) (set_captured 1000000 (init_state args)) in
  cond1 args s = false /\ cond2 args s = false /\ cond3 args s = false.
Proof.
  intros args s.
  destruct (zero_bound_is_disabled args s) as (H1 & H2 & H3 & _).
  split; [apply H1; reflexivity|].
  split; [apply H2; reflexivity|apply H3; reflexivity].
Defined.

(** ** The cursor *)

Lemma conds_set_finished args b s :
  cond1 args (set_finished b s) = cond1 args s /\
  cond2 args (set_finished b s) = cond2 args s /\
  cond3 args (set_finished b s) = cond3 args s.
Proof. repeat split. Qed.

(** Once a condition holds after a record, the page is abandoned there and
    the loop returns. *)
Lemma body_stops args st rest script s s' :
  process_status args st s = Next s' \/ process_status args st s = Break s' ->
  cond1 args s' || cond2 args s' || cond3 args s' = true ->
  process_page args (st :: rest) s = Break s' /\
  main_loop args script s' = finish s'.
Proof.
  intros Hflow Hc.
  destruct (process_status_inv args st s)
    as [(e & s2 & He & _)|(s1 & Hs1 & _)]; [destruct Hflow; congruence|].
  rewrite Hs1 in Hflow. destruct Hflow as [Hn|Hb].
  - apply check_limits_next in Hn as (-> & H1 & H2 & H3).
    rewrite H1, H2, H3 in Hc. discriminate.
  - split; [apply process_page_break; congruence|].
    apply main_loop_finished.
    apply check_limits_break in Hb as (-> & _). reflexivity.
Qed.

(** After a record that did not raise, the cursor is that record's id
    minus one. *)
Lemma process_status_cursor args st s s' :
  process_status args st s = Next s' \/ process_status args st s = Break s' ->
  exists n, status_id st = Some n /\ max_id s' = n - 1.
Proof.
  unfold process_status, status_id, getitem.
  destruct (fields st !! "id") as [i|]; [|intros [H|H]; discriminate].
  destruct i as [|n|x]; cbn [sub1]; try (intros [H|H]; discriminate).
  intros Hflow. exists n. split; [reflexivity|].
  assert (Hk : exists s1, max_id s1 = n - 1 /\
            (check_limits args s1 = Next s' \/ check_limits args s1 = Break s')).
  { destruct (is_valid st) as [e|[|]].
    - destruct Hflow; discriminate.
    - destruct (forward args st (set_max_id (n - 1) s)) as [e|s1] eqn:Hf;
        [destruct Hflow; discriminate|].
      exists s1. split; [|exact Hflow].
      apply forward_effect in Hf as (_ & -> & _). reflexivity.
    - eexists. split; [|exact Hflow]. reflexivity. }
  destruct Hk as (s1 & Hm & [Hn|Hb]).
  - apply check_limits_next in Hn as (-> & _). exact Hm.
  - apply check_limits_break in Hb as (-> & _). exact Hm.
Qed.

(** The failing run of C1: with L = 100 the cursor is 99 after the first
    record, at or below L, and the loop goes on: it processes the rest of the
    page and queries again. *)
Lemma max_id_floor_counterexample :
  let args := args_with 0 100 0 in
  arg_max_id args <> 0 /\
  (exists s1,
     process_status args (tweet 100 "Mon") (init_state args) = Next s1 /\
     max_id s1 <= arg_max_id args) /\
  (exists s2,
     main args [Statuses [tweet 100 "Mon"; tweet 90 "Tue"];
                Statuses [tweet 80 "Wed"]] = Pending s2 /\
     captured s2 = 3 /\ queries s2 = [100; 89] /\ max_id s2 <= arg_max_id args).
Proof.
  cbv zeta. split; [discriminate|]. split.
  - eexists. split; [vm_compute; reflexivity|]. cbn. lia.
  - eexists. split; [vm_compute; reflexivity|]. cbn. split; [reflexivity|].
    split; [reflexivity|lia].
Qed.

(** C1 (the code at the failing input). The test on the [max_id] bound is
    written the wrong way round: after any record whose id is at most L, and
    a query made with [max_id = L] returns no other, the cursor is below L
    and the condition on this bound is false.  With no other bound set the
    loop therefore goes on to the next record instead of stopping. *)
Theorem max_id_bound_never_stops_below args st s s' n :
  status_id st = Some n ->
  n <= arg_max_id args ->
  process_status args st s = Next s' \/ process_status args st s = Break s' ->
  max_id s' <= arg_max_id args /\
  cond2 args s' = false /\
  (arg_limit args = 0 -> arg_since_id args = 0 ->
   process_status args st s = Next s').
Proof.
  intros Hid Hle Hflow.
  destruct (process_status_cursor args st s s' Hflow) as (m & Hm & Hcur).
  rewrite Hid in Hm. inversion Hm; subst m.
  assert (H2 : cond2 args s' = false).
  { unfold cond2. apply andb_false_iff. right. apply Z.leb_gt. lia. }
  split; [lia|]. split; [exact H2|].
  intros Hl Hs. destruct Hflow as [Hn|Hb]; [exact Hn|]. exfalso.
  destruct (process_status_inv args st s)
    as [(e & s2 & He & _)|(s1 & Hs1 & _)]; [congruence|].
  rewrite Hs1 in Hb. apply check_limits_break in Hb as (-> & Hc).
  destruct (conds_set_finished args true s1) as (E1 & E2 & E3).
  rewrite E2 in H2. rewrite H2 in Hc.
  unfold cond1, cond3 in Hc. rewrite Hl, Hs in Hc. discriminate.
Qed.

Lemma max_id_bound_never_stops_below_witness :
  let args := args_with 0 100 0 in
  let s' := flow_state (process_status args (tweet 100 "Mon") (init_state args)) in
  max_id s' <= 100 /\ cond2 args s' = false /\
  process_status args (tweet 100 "Mon") (init_state args) = Next s'.
Proof.
  cbv zeta.
  destruct (max_id_bound_never_stops_below (args_with 0 100 0)
              (tweet 100 "Mon") (init_state (args_with 0 100 0))
              (flow_state (process_status (args_with 0 100 0) (tweet 100 "Mon")
                             (init_state (args_with 0 100 0)))) 100)
    as (H1 & H2 & H3).
  - vm_compute. reflexivity.
  - cbn. lia.
  - left. vm_compute. reflexivity.
  - split; [exact H1|]. split; [exact H2|]. apply H3; reflexivity.
Defined.

Lemma process_page_cursor args page :
  forall s s', page <> [] -> process_page args page s = Next s' ->
  exists st n, last page = Some st /\ status_id st = Some n /\ max_id s' = n - 1.
Proof.
  induction page as [|st rest IH]; intros s s' Hne Hp; [contradiction|].
  cbn in Hp.
  destruct (process_status args st s) as [s1|s1|e s1] eqn:Hs; try discriminate.
  destruct rest as [|st2 rest].
  - cbn in Hp. inversion Hp; subst.
    destruct (process_status_cursor args st s s') as (n & Hid & Hm); [auto|].
    exists st, n. auto.
  - destruct (IH s1 s') as (st' & n & Hl & Hid & Hm); [discriminate|exact Hp|].
    exists st', n. auto.
Qed.

Lemma minimum_least (l : list Z) (n : Z) :
  n ∈ l -> (forall m, m ∈ l -> n <= m) -> minimum l = Some n.
Proof.
  destruct l as [|x l]; [intros H; inversion H|].
  intros Hin Hle. cbn. f_equal.
  revert x Hin Hle. induction l as [|y l IH]; intros x Hin Hle.
  - cbn. apply list_elem_of_singleton in Hin. congruence.
  - cbn.
    assert (Hxy : n <= x /\ n <= y).
    { split; apply Hle; [left|right; left]. }
    assert (H : foldr Z.min x l = n \/ y = n).
    { apply elem_of_cons in Hin as [->|Hin].
      - left. apply IH; [left|]. intros m Hm. apply Hle.
        apply elem_of_cons in Hm as [->|Hm]; [left|right; right; exact Hm].
      - apply elem_of_cons in Hin as [->|Hin]; [right; reflexivity|].
        left. apply IH; [right; exact Hin|]. intros m Hm. apply Hle.
        apply elem_of_cons in Hm as [->|Hm]; [left|right; right; exact Hm]. }
    assert (Hf : n <= foldr Z.min x l).
    { clear H IH Hin. revert x Hle Hxy. induction l as [|z l IHl]; intros x Hle Hxy.
      - cbn. lia.
      - cbn. apply Z.min_glb.
        + apply Hle. right; right; left.
        + apply IHl; [|exact Hxy]. intros m Hm. apply Hle.
          apply elem_of_cons in Hm as [->|Hm]; [left|].
          apply elem_of_cons in Hm as [->|Hm]; [right; left|].
          right; right; right; exact Hm. }
    destruct H as [H|H]; lia.
Qed.

(** Against C4 as stated: on the page [5; 10] the cursor ends at 9, while
    the minimum id minus one is 4. *)
Lemma cursor_not_minimum_counterexample :
  let args := args_with 0 0 0 in
  let page := [tweet 5 "Mon"; tweet 10 "Tue"] in
  minimum (ids_of page) = Some 5 /\
  exists s', process_page args page (fetched page (init_state args)) = Next s' /\
             max_id s' = 9 /\ max_id s' <> 5 - 1.
Proof.
  cbv zeta. split; [vm_compute; reflexivity|].
  eexists. split; [vm_compute; reflexivity|]. cbn. split; [reflexivity|lia].
Qed.

(** C4 (amended). After a non-empty page processed to its end, the cursor
    is the id of the page's last record minus one.  That is the page's
    minimum id minus one whenever the last record carries the smallest id
    of the page, as it does in a page ordered from newer to older. *)
Theorem cursor_follows_last_record args page s s' :
  page <> [] ->
  process_page args page s = Next s' ->
  exists st n,
    last page = Some st /\ status_id st = Some n /\ max_id s' = n - 1 /\
    ((forall m, m ∈ ids_of page -> n <= m) -> minimum (ids_of page) = Some n).
Proof.
  intros Hne Hp.
  destruct (process_page_cursor args page s s' Hne Hp) as (st & n & Hl & Hid & Hm).
  exists st, n. repeat split; try assumption.
  intros Hle. apply minimum_least; [|exact Hle].
  unfold ids_of. apply list_elem_of_omap. exists st. split; [|exact Hid].
  apply last_Some in Hl as [l' ->]. apply elem_of_app. right. left.
Qed.

Lemma cursor_follows_last_record_witness :
  let args := args_with 0 0 0 in
  let page := [tweet 10 "Mon"; tweet 5 "Tue"] in
  exists st n,
    last page = Some st /\ status_id st = Some n /\
    max_id (flow_state (process_page args page (fetched page (init_state args))))
    = n - 1 /\
    ((forall m, m ∈ ids_of page -> n <= m) -> minimum (ids_of page) = Some n).
Proof.
  cbv zeta.
  refine (cursor_follows_last_record (args_with 0 0 0)
            [tweet 10 "Mon"; tweet 5 "Tue"]
            (fetched [tweet 10 "Mon"; tweet 5 "Tue"] (init_state (args_with 0 0 0)))
            (flow_state (process_page (args_with 0 0 0)
               [tweet 10 "Mon"; tweet 5 "Tue"]
               (fetched [tweet 10 "Mon"; tweet 5 "Tue"]
                        (init_state (args_with 0 0 0))))) _ _).
  - discriminate.
  - vm_compute. reflexivity.
Defined.

(** ** Invalid records *)

(** Against C7 as stated: the same page with and without an invalid
    record leaves the cursor at two different values. *)
Lemma invalid_record_moves_cursor_counterexample :
  let args := args_with 0 0 0 in
  let invalid := tweet 7 EmptyString in
  is_valid invalid = inr false /\
  exists s_with s_without,
    process_page args [tweet 10 "Mon"; invalid] (init_state args) = Next s_with /\
    process_page args [tweet 10 "Mon"] (init_state args) = Next s_without /\
    max_id s_with = 6 /\ max_id s_without = 9.
Proof.
  cbv zeta. split; [vm_compute; reflexivity|].
  eexists _, _. split; [vm_compute; reflexivity|].
  split; [vm_compute; reflexivity|]. cbn. auto.
Qed.

(** C7 (amended). A record with an integer id that fails validation is
    counted and forwarded nowhere: [captured] and both sinks are as before,
    and one error is logged.  The cursor is moved as for any record, to that
    id minus one, and the three conditions are then evaluated on it. *)
Theorem invalid_record_only_moves_cursor args st s n :
  fields st !! "id" = Some (AInt n) ->
  is_valid st = inr false ->
  let s1 := add_log (ErrorInvalidDocument st) (set_max_id (n - 1) s) in
  process_status args st s = check_limits args s1 /\
  captured s1 = captured s /\ sent s1 = sent s /\ written s1 = written s /\
  log s1 = log s ++ [ErrorInvalidDocument st] /\ max_id s1 = n - 1.
Proof.
  intros Hid Hv s1. split; [|repeat split].
  unfold process_status, getitem. rewrite Hid. cbn [sub1]. rewrite Hv.
  reflexivity.
Qed.

Lemma invalid_record_only_moves_cursor_witness :
  let args := args_with 0 0 0 in
  let st := tweet 7 EmptyString in
  let s := init_state args in
  let s1 := add_log (ErrorInvalidDocument st) (set_max_id (7 - 1) s) in
  process_status args st s = check_limits args s1 /\
  captured s1 = captured s /\ sent s1 = sent s /\ written s1 = written s /\
  log s1 = log s ++ [ErrorInvalidDocument st] /\ max_id s1 = 7 - 1.
Proof.
  cbv zeta.
  apply (invalid_record_only_moves_cursor (args_with 0 0 0)
           (tweet 7 EmptyString) (init_state (args_with 0 0 0)) 7).
  - reflexivity.
  - vm_compute. reflexivity.
Defined.

(** C3 (the code at the failing input). A record that has an id but no
    ["created_at"] key is not dropped: the lookup raises [KeyError], no
    clause of the handler matches its text, and [main] re-raises it. *)
Theorem missing_created_at_crashes args st rest script s n :
  finished s = false ->
  st :: rest <> results s ->
  fields st !! "id" = Some (AInt n) ->
  n <> 0 ->
  fields st !! "created_at" = None ->
  main_loop args (Statuses (st :: rest) :: script) s
  = Crashed (KeyError "created_at")
            (set_max_id (n - 1) (fetched (st :: rest) s)).
Proof.
  intros Hfin Hne Hid Hn Hc.
  rewrite main_loop_page_step by (assumption || discriminate).
  cbn [process_page].
  assert (Hp : forall s0, process_status args st s0
               = Raise (KeyError "created_at") (set_max_id (n - 1) s0)).
  { intros s0. unfold process_status, is_valid, getitem. rewrite Hid, Hc.
    cbn [sub1 truthy]. destruct (Z.eqb_spec n 0); [contradiction|].
    reflexivity. }
  rewrite Hp. reflexivity.
Qed.

Lemma missing_created_at_crashes_witness :
  let args := args_with 0 0 0 in
  let page := [tweet_without_created_at 7; tweet 5 "Tue"] in
  main args [Statuses page; Statuses []]
  = Crashed (KeyError "created_at")
            (set_max_id (7 - 1) (fetched page (init_state args))).
Proof.
  cbv zeta.
  apply (missing_created_at_crashes (args_with 0 0 0)
           (tweet_without_created_at 7) [tweet 5 "Tue"] [Statuses []]
           (init_state (args_with 0 0 0)) 7).
  - reflexivity.
  - discriminate.
  - reflexivity.
  - discriminate.
  - reflexivity.
Defined.

(** A record whose ["created_at"] is present but empty is dropped with an
    error log, and the run goes on. *)
Example empty_created_at_is_dropped :
  exists s,
    main (args_with 0 0 0)
         [Statuses [tweet 10 "Mon"; tweet 7 EmptyString; tweet 5 "Wed"];
          Statuses []] = Returned s /\
    captured s = 2 /\ length (sent s) = 2%nat /\
    log s = [ErrorInvalidDocument (tweet 7 EmptyString); InfoTotal 2].
Proof. eexists. split; [vm_compute; reflexivity|]. cbn. auto. Qed.

(** ** Exhaustion *)

Lemma process_page_frame args page :
  forall s s', process_page args page s = Next s' ->
  finished s' = finished s /\ results s' = results s.
Proof.
  induction page as [|st rest IH]; intros s s' Hp; cbn in Hp.
  - inversion Hp. auto.
  - destruct (process_status args st s) as [s1|s1|e s1] eqn:Hs; try discriminate.
    destruct (process_status_inv args st s)
      as [(e & s2 & He & _)|(s2 & Hs2 & _ & Hf & Hr)]; [congruence|].
    rewrite Hs2 in Hs. apply check_limits_next in Hs as (-> & _).
    apply IH in Hp as [-> ->]. auto.
Qed.

(** Against C5 as stated: two consecutive pages with the same set of ids,
    in a different order, are both processed. *)
Lemma same_ids_not_exhausted_counterexample :
  let args := args_with 0 0 0 in
  let first := [tweet 5 "Mon"; tweet 3 "Tue"] in
  let second := [tweet 3 "Tue"; tweet 5 "Mon"] in
  list_to_set (ids_of first) =@{gset Z} list_to_set (ids_of second) /\
  exists s1 s2,
    main args [Statuses first] = Pending s1 /\ captured s1 = 2 /\
    main args [Statuses first; Statuses second] = Pending s2 /\
    captured s2 = 4 /\ length (sent s2) = 4%nat /\ finished s2 = false.
Proof.
  cbv zeta. split; [vm_compute; reflexivity|].
  eexists _, _. split; [vm_compute; reflexivity|]. split; [reflexivity|].
  split; [vm_compute; reflexivity|]. cbn. auto.
Qed.

(** C5 (amended). An empty page, and a page equal to the page fetched just
    before it (the same records in the same order), end the run normally:
    the loop returns at once, nothing of that page is forwarded and
    [captured] stays as it was. *)
Theorem repeated_or_empty_page_is_exhausted args page script s :
  finished s = false ->
  (page = [] \/ page = results s ->
   main_loop args (Statuses page :: script) s
   = finish (set_finished true (fetched page s))) /\
  (forall s1,
     page <> [] -> page <> results s ->
     process_page args page (fetched page s) = Next s1 ->
     main_loop args (Statuses page :: Statuses page :: script) s
     = finish (set_finished true (fetched page s1)) /\
     captured (fetched page s1) = captured s1 /\
     sent (fetched page s1) = sent s1 /\
     written (fetched page s1) = written s1).
Proof.
  intros Hfin.
  assert (Hone : forall s0, finished s0 = false ->
            page = [] \/ page = results s0 ->
            main_loop args (Statuses page :: script) s0
            = finish (set_finished true (fetched page s0))).
  { intros s0 Hf Hp. cbn [main_loop]. rewrite Hf.
    destruct Hp as [->| ->].
    - reflexivity.
    - rewrite (bool_decide_eq_true_2 (results s0 = results s0)) by reflexivity.
      rewrite orb_true_r. reflexivity. }
  split; [apply Hone; exact Hfin|].
  intros s1 Hne Hnr Hp. split; [|repeat split].
  pose proof (process_page_frame args page _ _ Hp) as [Hf1 Hr1].
  rewrite main_loop_page_step by assumption. rewrite Hp.
  apply Hone; [rewrite Hf1; exact Hfin|].
  right. rewrite Hr1. reflexivity.
Qed.

Lemma repeated_or_empty_page_is_exhausted_witness :
  let args := args_with 0 0 0 in
  let page := [tweet 5 "Mon"; tweet 3 "Tue"] in
  let s1 := flow_state (process_page args page (fetched page (init_state args))) in
  main args [Statuses page; Statuses page; Statuses [tweet 1 "Wed"]]
  = finish (set_finished true (fetched page s1)) /\
  captured (fetched page s1) = captured s1 /\
  sent (fetched page s1) = sent s1 /\
  written (fetched page s1) = written s1.
Proof.
  cbv zeta.
  apply (repeated_or_empty_page_is_exhausted (args_with 0 0 0)
           [tweet 5 "Mon"; tweet 3 "Tue"] [Statuses [tweet 1 "Wed"]]
           (init_state (args_with 0 0 0))).
  - reflexivity.
  - discriminate.
  - discriminate.
  - vm_compute. reflexivity.
Defined.

(** ** Transient failures *)

Lemma transient_retry_step args msg script s :
  classify msg = Transient -> finished s = false ->
  main_loop args (Fails msg :: script) s
  = main_loop args script
      (add_slept 60 (add_log (WarningSleeping msg)
         (add_query (max_id s) (set_retries 0 s)))).
Proof.
  intros Hc Hf. cbn [main_loop]. rewrite Hf. unfold handle.
  cbn [str_exn]. rewrite Hc. reflexivity.
Qed.

(** C2 (the code at the failing input). [retries] is set to 0 at the head
    of every iteration and never incremented, so it never equals
    [max_retries]: after any number of consecutive transient failures the
    loop has slept 60 seconds after each, has not finished, and goes on to
    the next query with the same cursor. *)
Theorem transient_failures_retry_without_bound args msg n script s :
  classify msg = Transient ->
  finished s = false ->
  exists s',
    main_loop args (repeat (Fails msg) n ++ script) s = main_loop args script s' /\
    finished s' = false /\
    slept s' = slept s ++ repeat 60 n /\
    queries s' = queries s ++ repeat (max_id s) n /\
    log s' = log s ++ repeat (WarningSleeping msg) n /\
    max_id s' = max_id s /\ captured s' = captured s.
Proof.
  intros Hc. revert s. induction n as [|n IH]; intros s Hf.
  - exists s. cbn. rewrite !app_nil_r. repeat split; assumption || reflexivity.
  - cbn [repeat app].
    rewrite transient_retry_step by assumption.
    destruct (IH (add_slept 60 (add_log (WarningSleeping msg)
                    (add_query (max_id s) (set_retries 0 s)))))
      as (s' & Hrun & Hf' & Hs & Hq & Hl & Hm & Hcap); [exact Hf|].
    exists s'. simpl_state. rewrite Hrun, Hs, Hq, Hl, <- !app_assoc.
    repeat split; assumption.
Qed.

Lemma transient_failures_retry_without_bound_witness :
  let args := args_with 0 0 0 in
  let msg := "Twitter API returned a 503 (Service Unavailable), Over capacity" in
  exists s',
    main args (repeat (Fails msg) 4 ++ [Statuses [tweet 10 "Mon"]])
    = main_loop args [Statuses [tweet 10 "Mon"]] s' /\
    finished s' = false /\
    slept s' = [] ++ repeat 60 4 /\
    queries s' = [] ++ repeat 0 4 /\
    log s' = [] ++ repeat (WarningSleeping msg) 4 /\
    max_id s' = 0 /\ captured s' = 0.
Proof.
  cbv zeta.
  apply (transient_failures_retry_without_bound (args_with 0 0 0)
           "Twitter API returned a 503 (Service Unavailable), Over capacity"
           4 [Statuses [tweet 10 "Mon"]] (init_state (args_with 0 0 0))).
  - vm_compute. reflexivity.
  - reflexivity.
Defined.

Example four_transient_failures_then_a_page :
  exists s,
    main (args_with 0 0 0)
         (repeat (Fails "500 (Internal Server Error)") 4
          ++ [Statuses [tweet 10 "Mon"]; Statuses []]) = Returned s /\
    queries s = [0; 0; 0; 0; 0; 9] /\ slept s = [60; 60; 60; 60] /\
    captured s = 1.
Proof. eexists. split; [vm_compute; reflexivity|]. cbn. auto. Qed.

(** ** Acquiring a credential *)

(** A pass that returns a credential found it with a nonzero quota. *)
Lemma probe_all_returned answer n_secrets idx :
  forall remaining tts tr i,
    returned (probe_all answer n_secrets idx remaining tts tr) = Some i ->
    exists r reset now, answer i = Quota r reset now /\ (0 < r)%N.
Proof.
  induction idx as [|j idx IH]; intros remaining tts tr i H; cbn in H.
  - discriminate.
  - unfold probe_credential in H.
    destruct (j <? n_secrets)%nat.
    + destruct (answer j) as [r reset now| |msg] eqn:Ha.
      * destruct (N.eqb_spec r 0) as [->|Hr]; cbn [negb] in H.
        -- destruct (reset - now + 1 <? tts); exact (IH _ _ _ _ H).
        -- cbn in H. inversion H; subst. exists r, reset, now.
           split; [exact Ha|lia].
      * exact (IH _ _ _ _ H).
      * exact (IH _ _ _ _ H).
    + exact (IH _ _ _ _ H).
Qed.

(** A pass in which every credential answers with a quota of 0 returns
    nothing, leaves [remaining] at 0 and the running minimum in [tts]. *)
Lemma probe_all_exhausted answer n_secrets idx :
  (forall i, i ∈ idx -> (i < n_secrets)%nat /\
     exists reset now, answer i = Quota 0 reset now) ->
  forall remaining tts tr,
    tts <= 900 ->
    returned (probe_all answer n_secrets idx remaining tts tr) = None /\
    remaining_after (probe_all answer n_secrets idx remaining tts tr)
      = (if bool_decide (idx = []) then remaining else 0%N) /\
    tts_after (probe_all answer n_secrets idx remaining tts tr)
      = Z.min tts (minimum_wait answer idx) /\
    events (probe_all answer n_secrets idx remaining tts tr) = tr.
Proof.
  induction idx as [|j idx IH]; intros Hall remaining tts tr Hcap.
  - cbn. repeat split. unfold minimum_wait. cbn. lia.
  - destruct (Hall j) as (Hj & reset & now & Ha); [left|].
    assert (Hall' : forall i, i ∈ idx -> (i < n_secrets)%nat /\
              exists reset now, answer i = Quota 0 reset now).
    { intros i Hi. apply Hall. right. exact Hi. }
    cbn [probe_all]. unfold probe_credential.
    apply Nat.ltb_lt in Hj. rewrite Hj, Ha. cbn [N.eqb negb].
    assert (Hw : minimum_wait answer (j :: idx)
                 = Z.min (reset - now + 1) (minimum_wait answer idx)).
    { unfold minimum_wait. cbn [foldr]. rewrite Ha. reflexivity. }
    rewrite Hw.
    destruct (Z.ltb_spec (reset - now + 1) tts) as [Hlt|Hge].
    + destruct (IH Hall' 0%N (reset - now + 1) tr) as (H1 & H2 & H3 & H4);
        [lia|].
      rewrite H1, H2, H3, H4. repeat split; [|lia].
      destruct (bool_decide (idx = [])); reflexivity.
    + destruct (IH Hall' 0%N tts tr) as (H1 & H2 & H3 & H4); [lia|].
      rewrite H1, H2, H3, H4. repeat split; [|lia].
      destruct (bool_decide (idx = [])); reflexivity.
Qed.

Lemma init_loop_got world ids secrets fuel :
  forall pass remaining tr i tr',
    init_loop world ids secrets fuel pass remaining tr = Got i tr' ->
    exists p r reset now, world p i = Quota r reset now /\ (0 < r)%N.
Proof.
  induction fuel as [|fuel IH]; intros pass remaining tr i tr' H; cbn in H.
  - discriminate.
  - destruct (returned (probe_all _ _ _ _ _ _)) as [j|] eqn:Hr.
    + inversion H; subst.
      destruct (probe_all_returned _ _ _ _ _ _ _ Hr) as (r & reset & now & Ha & Hp).
      exists pass, r, reset, now. auto.
    + destruct (remaining_after _ =? 0)%N.
      * destruct (tts_after _ <? 0); [discriminate|]. exact (IH _ _ _ _ _ H).
      * exact (IH _ _ _ _ _ H).
Qed.

(** Against C8 as stated: a single exhausted credential whose reset is
    1001 seconds away makes the routine sleep 900 seconds. *)
Lemma wait_is_capped_counterexample :
  let world := fun (p i : nat) => Quota 0 2000 1000 in
  2000 - 1000 + 1 = 1001 /\
  init_twitter_api world (CredStr "key") (CredStr "secret") 1
  = Waiting [ZeroLeft 900; Sleep 900].
Proof. cbv zeta. split; [reflexivity|vm_compute; reflexivity]. Qed.

(** C8 (amended). When every configured credential answers with a quota of
    0, the wait is the smaller of 900 seconds and the minimum over the
    credentials of (reset - now + 1), [now] being the clock read when that
    credential was probed; the routine sleeps exactly that long and probes
    again.  It returns a credential only when that credential answered with
    a positive remaining quota. *)
Theorem wait_is_minimum_reset_capped world ids secrets fuel pass remaining tr :
  ids <> [] ->
  (forall i, (i < length ids)%nat -> (i < length secrets)%nat /\
     exists reset now, world pass i = Quota 0 reset now) ->
  let wait := Z.min 900 (minimum_wait (world pass) (seq 0 (length ids))) in
  0 <= wait ->
  init_loop world ids secrets (S fuel) pass remaining tr
  = init_loop world ids secrets fuel (S pass) 0%N
      (tr ++ [ZeroLeft wait] ++ [Sleep wait]) /\
  (forall fuel' pass' remaining' tr0 i tr',
     init_loop world ids secrets fuel' pass' remaining' tr0 = Got i tr' ->
     exists p r reset now, world p i = Quota r reset now /\ (0 < r)%N).
Proof.
  intros Hne Hall wait Hw. split.
  - assert (Hall' : forall i, i ∈ seq 0 (length ids) ->
              (i < length secrets)%nat /\
              exists reset now, world pass i = Quota 0 reset now).
    { intros i Hi. apply Hall. apply elem_of_seq in Hi. lia. }
    destruct (probe_all_exhausted (world pass) (length secrets)
                (seq 0 (length ids)) Hall' remaining 900 tr)
      as (H1 & H2 & H3 & H4); [lia|].
    cbn [init_loop]. rewrite H1, H2, H3, H4.
    assert (Hseq : seq 0 (length ids) <> []).
    { destruct ids; [contradiction|discriminate]. }
    rewrite bool_decide_eq_false_2 by exact Hseq.
    cbn [N.eqb]. fold wait.
    destruct (Z.ltb_spec wait 0) as [Hneg|_]; [lia|].
    rewrite <- app_assoc. reflexivity.
  - intros fuel' pass' remaining' tr0 i tr'. apply init_loop_got.
Qed.

Lemma wait_is_minimum_reset_capped_witness :
  let world := fun (p i : nat) =>
    match p, i with
    | O, O => Quota 0 1500 1000
    | O, _ => Quota 0 1300 1002
    | _, _ => Quota 15 3000 1500
    end in
  init_loop world ["k1"; "k2"] ["s1"; "s2"] 2 0 0%N []
  = init_loop world ["k1"; "k2"] ["s1"; "s2"] 1 1 0%N
      ([] ++ [ZeroLeft 299] ++ [Sleep 299]) /\
  init_twitter_api world (CredList ["k1"; "k2"]) (CredList ["s1"; "s2"]) 2
  = Got 0 [ZeroLeft 299; Sleep 299; Authenticated 15].
Proof.
  cbv zeta. split; [|vm_compute; reflexivity].
  apply (wait_is_minimum_reset_capped
           (fun (p i : nat) =>
              match p, i with
              | O, O => Quota 0 1500 1000
              | O, _ => Quota 0 1300 1002
              | _, _ => Quota 15 3000 1500
              end) ["k1"; "k2"] ["s1"; "s2"] 1 0 0%N []).
  - discriminate.
  - intros i Hi. cbn in Hi. split; [cbn; lia|].
    destruct i as [|i]; [eexists _, _; reflexivity|].
    eexists _, _; reflexivity.
  - vm_compute. discriminate.
Defined.

(** * Further properties of the loop *)

(** ** Invariants of a run *)

(** What holds of the state at the start and is kept by every assignment of
    the loop holds of the state in which the run ends, pends or crashes. *)
Section Invariant.
Variable args : Arguments.
Variable P : state -> Prop.
Variable Q : status -> Prop.

Hypothesis P_max_id : forall v s, P s -> P (set_max_id v s).
Hypothesis P_finished : forall v s, P s -> P (set_finished v s).
Hypothesis P_retries : forall v s, P s -> P (set_retries v s).
Hypothesis P_results : forall v s, P s -> P (set_results v s).
Hypothesis P_log : forall v s, P s -> P (add_log v s).
Hypothesis P_query : forall v s, P s -> P (add_query v s).
Hypothesis P_acquired : forall s, P s -> P (add_acquired s).
Hypothesis P_slept : forall s, P s -> P (add_slept 60 s).
Hypothesis P_forward : forall st s s',
  Q st -> is_valid st = inr true -> P s -> forward args st s = inr s' -> P s'.

Lemma check_limits_invariant s :
  P s -> P (flow_state (check_limits args s)).
Proof.
  intros H. unfold check_limits.
  destruct (cond1 args s || cond2 args s || cond3 args s); cbn; auto.
Qed.

Lemma process_status_invariant st s :
  Q st -> P s -> P (flow_state (process_status args st s)).
Proof.
  intros HQ H. unfold process_status.
  destruct (getitem (fields st) "id") as [e|i]; [exact H|].
  destruct (sub1 i) as [e|m]; [exact H|].
  destruct (is_valid st) as [e|[|]] eqn:Hv.
  - cbn. auto.
  - destruct (forward args st (set_max_id m s)) as [e|s1] eqn:Hf.
    + cbn. auto.
    + apply check_limits_invariant.
      exact (P_forward st (set_max_id m s) s1 HQ Hv (P_max_id m s H) Hf).
  - apply check_limits_invariant. auto.
Qed.

Lemma process_page_invariant page :
  Forall Q page -> forall s, P s -> P (flow_state (process_page args page s)).
Proof.
  induction 1 as [|st rest HQ Hrest IH]; intros s H; cbn; [exact H|].
  pose proof (process_status_invariant st s HQ H) as Hs.
  destruct (process_status args st s) as [s1|s1|e s1]; cbn in Hs |- *; auto.
Qed.

Lemma handle_invariant e s (k : state -> outcome) :
  P s -> (forall s', P s' -> P (final_state (k s'))) ->
  P (final_state (handle e s k)).
Proof.
  intros H Hk. unfold handle, finish.
  destruct (classify (str_exn e)); cbn; auto.
  destruct (retries s =? max_retries); cbn; auto.
Qed.

Lemma main_loop_cons r script s :
  main_loop args (r :: script) s
  = if finished s then finish s else
    match r with
    | Fails msg =>
      handle (TwythonError msg) (add_query (max_id s) (set_retries 0 s))
             (main_loop args script)
    | Statuses page =>
      if bool_decide (page = []) || bool_decide (results s = page)
      then finish (set_finished true (fetched page s))
      else match process_page args page (fetched page s) with
           | Next s' => main_loop args script s'
           | Break s' => main_loop args script s'
           | Raise e s' => handle e s' (main_loop args script)
           end
    end.
Proof. reflexivity. Qed.

Lemma main_loop_invariant script :
  Forall Q (all_statuses script) ->
  forall s, P s -> P (final_state (main_loop args script s)).
Proof.
  induction script as [|r script IH]; intros HQ s H.
  - cbn. destruct (finished s); cbn; auto 10.
  - rewrite main_loop_cons. destruct (finished s); [cbn; auto 10|].
    destruct r as [page|msg].
    + change (all_statuses (Statuses page :: script))
        with (page ++ all_statuses script) in HQ.
      apply Forall_app in HQ as [HQp HQs].
      destruct (bool_decide (page = []) || bool_decide (results s = page));
        [cbn; unfold fetched; auto 10|].
      pose proof (process_page_invariant page HQp (fetched page s)) as Hp.
      destruct (process_page args page _) as [s1|s1|e s1]; cbn in Hp.
      * apply IH; [exact HQs|]. apply Hp. unfold fetched. auto 10.
      * apply IH; [exact HQs|]. apply Hp. unfold fetched. auto 10.
      * apply handle_invariant; [apply Hp; unfold fetched; auto 10|].
        intros s' Hs'. apply IH; assumption.
    + change (all_statuses (Fails msg :: script))
        with (all_statuses script) in HQ.
      apply handle_invariant; [auto 10|].
      intros s' Hs'. apply IH; assumption.
Qed.
End Invariant.

Lemma process_entry_inr st v :
  process_entry st = inr v ->
  exists i u name,
    fields st !! "id_str" = Some i /\ user st = Some (UserObject u) /\
    u !! "screen_name" = Some name /\
    v = {| env_id := i;
           env_url := "https://twitter.com/" +:+ py_str name
                      +:+ "/status/" +:+ py_str i |}.
Proof.
  unfold process_entry, getitem. intros H.
  destruct (fields st !! "id_str") as [i|] eqn:Hi; [|discriminate].
  destruct (user st) as [[a|u]|] eqn:Hu; try discriminate.
  destruct (u !! "screen_name") as [name|] eqn:Hn; [|discriminate].
  inversion H. exists i, u, name. repeat split. exact Hn.
Qed.

Lemma kafka_send_inr args st s s' :
  kafka_send args st s = inr s' ->
  exists key v,
    s' = add_sent (topic args, key, v) s /\ process_entry st = inr v /\
    fields st !! "id_str" = Some (AStr key).
Proof.
  unfold kafka_send, getitem. intros H.
  destruct (process_entry st) as [e|v]; [discriminate|].
  destruct (fields st !! "id_str") as [k|] eqn:Hk; [|discriminate].
  destruct k as [|n|key]; cbn in H; try discriminate.
  inversion H. exists key, v. repeat split.
Qed.

(** X1. [captured] is the number of messages published to Kafka when
    brokers are configured, and the number of lines written when an output
    file is; a sink that is not configured receives nothing.  This holds
    however the run ends. *)
Theorem captured_counts_what_was_forwarded args script :
  sinks_agree args (final_state (main args script)).
Proof.
  unfold main.
  apply (main_loop_invariant args (sinks_agree args) (fun _ => True));
    try (intros; assumption).
  - intros st s s' _ _ [Hk Hw] Hf. unfold forward in Hf. unfold sinks_agree.
    destruct (is_set (kafka_brokers args)).
    + destruct (kafka_send args st s) as [e|s1] eqn:Hs; [discriminate|].
      apply kafka_send_inr in Hs as (key & v & -> & _).
      destruct (is_set (output_json args)); inversion Hf; simpl_state;
        rewrite ?length_app; cbn [length]; split; try assumption; lia.
    + destruct (is_set (output_json args)); inversion Hf; simpl_state;
        rewrite ?length_app; cbn [length]; split; try assumption; lia.
  - apply Forall_forall. auto.
  - unfold sinks_agree. cbn.
    destruct (is_set (kafka_brokers args)), (is_set (output_json args)); auto.
Qed.

(** X2. Every message published to Kafka goes to the configured topic, has
    the text of a record's [id_str] as its key, and carries the envelope of
    that same id: the key, the envelope's id and the tail of its url
    agree. *)
Theorem published_messages_are_keyed_envelopes args script :
  Forall (well_published args) (sent (final_state (main args script))).
Proof.
  unfold main.
  apply (main_loop_invariant args
           (fun s => Forall (well_published args) (sent s)) (fun _ => True));
    try (intros; assumption).
  - intros st s s' _ _ H Hf. unfold forward in Hf.
    assert (Hstep : forall s1, kafka_send args st s = inr s1 ->
              Forall (well_published args) (sent s1)).
    { intros s1 Hs. apply kafka_send_inr in Hs as (key & v & -> & Hv & Hid).
      simpl_state. apply Forall_app. split; [exact H|].
      apply Forall_singleton.
      apply process_entry_inr in Hv as (i & u & name & Hi & _ & _ & ->).
      rewrite Hid in Hi. inversion Hi; subst.
      cbn. split; [reflexivity|]. split; [reflexivity|].
      exists (py_str name). reflexivity. }
    destruct (is_set (kafka_brokers args)).
    + destruct (kafka_send args st s) as [e|s1] eqn:Hs; [discriminate|].
      specialize (Hstep s1 eq_refl).
      destruct (is_set (output_json args)); inversion Hf; simpl_state;
        exact Hstep.
    + destruct (is_set (output_json args)); inversion Hf; simpl_state;
        exact H.
  - apply Forall_forall. auto.
  - cbn. constructor.
Qed.

(** X3. Nothing reaches a sink that is not a valid record of a fetched
    page: every line written is such a record, and every envelope
    published is the envelope of one. *)
Theorem sinks_hold_valid_fetched_records args script :
  let s := final_state (main args script) in
  Forall (fun st => st ∈ all_statuses script /\ is_valid st = inr true)
         (written s) /\
  Forall (fun m => exists st, st ∈ all_statuses script /\
                     is_valid st = inr true /\ process_entry st = inr m.2)
         (sent s).
Proof.
  cbv zeta. unfold main.
  apply (main_loop_invariant args
           (fun s =>
              Forall (fun st => st ∈ all_statuses script /\ is_valid st = inr true)
                     (written s) /\
              Forall (fun m => exists st, st ∈ all_statuses script /\
                                 is_valid st = inr true /\
                                 process_entry st = inr m.2) (sent s))
           (fun st => st ∈ all_statuses script));
    try (intros; assumption).
  - intros st s s' Hin Hv [Hw Hs] Hf. unfold forward in Hf.
    assert (Hstep : forall s1, kafka_send args st s = inr s1 ->
              written s1 = written s /\
              Forall (fun m => exists st, st ∈ all_statuses script /\
                                 is_valid st = inr true /\
                                 process_entry st = inr m.2) (sent s1)).
    { intros s1 Hk. apply kafka_send_inr in Hk as (key & v & -> & Hpe & _).
      simpl_state. split; [reflexivity|]. apply Forall_app. split; [exact Hs|].
      apply Forall_singleton. exists st. auto. }
    destruct (is_set (kafka_brokers args)).
    + destruct (kafka_send args st s) as [e|s1] eqn:Hk; [discriminate|].
      destruct (Hstep s1 eq_refl) as [Hw1 Hs1].
      destruct (is_set (output_json args)); inversion Hf; simpl_state;
        rewrite ?Hw1; split; try assumption.
      apply Forall_app. split; [exact Hw|]. apply Forall_singleton. auto.
    + destruct (is_set (output_json args)); inversion Hf; simpl_state;
        split; try assumption.
      apply Forall_app. split; [exact Hw|]. apply Forall_singleton. auto.
  - apply Forall_forall. auto.
  - cbn. split; constructor.
Qed.

(** ** Exceptions raised on a record *)

Lemma getitem_inl d k e : getitem d k = inl e -> e = KeyError k.
Proof. unfold getitem. destruct (d !! k); intros H; inversion H; reflexivity. Qed.

Lemma process_entry_inl st e :
  process_entry st = inl e ->
  e = KeyError "id_str" \/ e = KeyError "user" \/ e = KeyError "screen_name" \/
  exists a, e = subscript_error a.
Proof.
  unfold process_entry. intros H.
  destruct (getitem (fields st) "id_str") as [e1|i] eqn:Hi.
  { apply getitem_inl in Hi. inversion H; subst. auto. }
  destruct (user st) as [[a|u]|].
  - inversion H. right. right. right. exists a. reflexivity.
  - destruct (getitem u "screen_name") as [e1|n] eqn:Hn.
    { apply getitem_inl in Hn. inversion H; subst. auto. }
    discriminate.
  - inversion H. auto.
Qed.

Lemma process_status_raises args st s e s' :
  process_status args st s = Raise e s' -> In e record_errors.
Proof.
  unfold process_status. intros H.
  destruct (getitem (fields st) "id") as [e1|i] eqn:Hi.
  { apply getitem_inl in Hi. inversion H; subst. cbn. auto. }
  destruct (sub1 i) as [e1|m] eqn:Hm.
  { destruct i; cbn in Hm; inversion Hm; inversion H; subst; cbn; auto 12. }
  destruct (is_valid st) as [e1|[|]] eqn:Hv.
  - unfold is_valid in Hv. rewrite Hi in Hv.
    destruct (truthy i); [|discriminate].
    destruct (getitem (fields st) "created_at") as [e2|c] eqn:Hc; [|discriminate].
    apply getitem_inl in Hc. inversion Hv; inversion H; subst. cbn. auto.
  - destruct (forward args st (set_max_id m s)) as [e1|s1] eqn:Hf.
    + inversion H; subst. unfold forward in Hf.
      destruct (is_set (kafka_brokers args)); [|discriminate].
      destruct (kafka_send args st (set_max_id m s)) as [e2|s2] eqn:Hk;
        [|discriminate].
      inversion Hf; subst. unfold kafka_send in Hk.
      destruct (process_entry st) as [e3|v] eqn:Hp.
      { inversion Hk; subst.
        apply process_entry_inl in Hp as [->|[->|[->|[a ->]]]];
          try (cbn; auto 10). destruct a; cbn; auto 12. }
      destruct (getitem (fields st) "id_str") as [e3|k] eqn:Hid.
      { apply getitem_inl in Hid. inversion Hk; subst. cbn. auto. }
      destruct k; cbn in Hk; inversion Hk; subst; cbn; auto 15.
    + exfalso. exact (check_limits_not_raise _ _ _ _ H).
  - exfalso. exact (check_limits_not_raise _ _ _ _ H).
Qed.

Lemma process_page_raises args page :
  forall s e s', process_page args page s = Raise e s' -> In e record_errors.
Proof.
  induction page as [|st rest IH]; intros s e s' H; cbn in H; [discriminate|].
  destruct (process_status args st s) as [s1|s1|e1 s1] eqn:Hs.
  - exact (IH _ _ _ H).
  - discriminate.
  - inversion H; subst. exact (process_status_raises _ _ _ _ _ Hs).
Qed.

Lemma record_errors_unclassified e :
  In e record_errors -> classify (str_exn e) = Unclassified.
Proof.
  unfold record_errors. intros H.
  repeat (destruct H as [<-|H]; [vm_compute; reflexivity|]).
  contradiction.
Qed.

(** X4. An exception raised while a record is processed is never retried
    or skipped: whichever key is missing or value ill-typed, the text of the
    exception matches no clause of the handler, and [main] re-raises it with
    the rest of the page and of the run left undone. *)
Theorem record_exception_is_fatal args page script s e s' :
  finished s = false ->
  page <> [] -> page <> results s ->
  process_page args page (fetched page s) = Raise e s' ->
  main_loop args (Statuses page :: script) s = Crashed e s'.
Proof.
  intros Hf Hne Hnr Hp.
  rewrite main_loop_page_step by assumption. rewrite Hp.
  unfold handle.
  rewrite (record_errors_unclassified e (process_page_raises _ _ _ _ _ Hp)).
  reflexivity.
Qed.

Lemma record_exception_is_fatal_witness :
  let args := args_with 0 0 0 in
  let orphan := {| fields := {[ "id" := AInt 7; "created_at" := AStr "Tue";
                                "id_str" := AStr "7" ]};
                   user := None |} in
  let page := [tweet 9 "Mon"; orphan; tweet 5 "Wed"] in
  exists s',
    main args [Statuses page; Statuses []] = Crashed (KeyError "user") s' /\
    captured s' = 1 /\ length (sent s') = 1%nat /\ max_id s' = 6.
Proof.
  cbv zeta. eexists. split.
  - apply (record_exception_is_fatal (args_with 0 0 0)).
    + reflexivity.
    + discriminate.
    + discriminate.
    + vm_compute. reflexivity.
  - cbn. auto.
Defined.

(** ** Sleeping, returning, recovering *)

Lemma process_page_slept args page s :
  slept (flow_state (process_page args page s)) = slept s.
Proof.
  apply (process_page_invariant args (fun s' => slept s' = slept s)
           (fun _ => True)); try (intros; assumption).
  - intros st s0 s1 _ _ H Hf. unfold forward in Hf.
    destruct (is_set (kafka_brokers args)).
    + destruct (kafka_send args st s0) as [e|s2] eqn:Hk; [discriminate|].
      apply kafka_send_inr in Hk as (key & v & -> & _).
      destruct (is_set (output_json args)); inversion Hf; simpl_state; exact H.
    + destruct (is_set (output_json args)); inversion Hf; simpl_state; exact H.
  - apply Forall_forall. auto.
  - reflexivity.
Qed.

Lemma main_loop_slept args script :
  forall s, exists k,
    slept (final_state (main_loop args script s)) = slept s ++ repeat 60 k /\
    (k <= transient_count script)%nat.
Proof.
  induction script as [|r script IH]; intros s.
  - exists 0%nat. cbn. destruct (finished s); cbn; rewrite app_nil_r; auto.
  - rewrite main_loop_cons.
    destruct (finished s); [exists 0%nat; cbn; rewrite app_nil_r; split; [auto|lia]|].
    destruct r as [page|msg].
    + change (transient_count (Statuses page :: script))
        with (transient_count script).
      destruct (bool_decide (page = []) || bool_decide (results s = page));
        [exists 0%nat; cbn; rewrite app_nil_r; split; [auto|lia]|].
      pose proof (process_page_slept args page (fetched page s)) as Hs.
      destruct (process_page args page (fetched page s)) as [s1|s1|e s1] eqn:Hp;
        cbn in Hs.
      * destruct (IH s1) as (k & Hk & Hle). exists k. rewrite Hk, Hs. auto.
      * destruct (IH s1) as (k & Hk & Hle). exists k. rewrite Hk, Hs. auto.
      * unfold handle.
        rewrite (record_errors_unclassified e (process_page_raises _ _ _ _ _ Hp)).
        exists 0%nat. cbn. rewrite app_nil_r, Hs. split; [reflexivity|lia].
    + unfold transient_count. cbn [List.filter is_transient].
      unfold handle. cbn [str_exn].
      destruct (classify msg).
      * destruct (IH (add_acquired (add_query (max_id s) (set_retries 0 s))))
          as (k & Hk & Hle).
        exists k. rewrite Hk. split; [reflexivity|exact Hle].
      * cbn [length].
        destruct (IH (add_slept 60 (add_log (WarningSleeping msg)
                        (add_query (max_id s) (set_retries 0 s)))))
          as (k & Hk & Hle).
        exists (S k). cbn [retries set_retries add_query]. cbn [Z.eqb max_retries].
        rewrite Hk. simpl_state. rewrite <- app_assoc.
        split; [reflexivity|]. unfold transient_count in Hle. lia.
      * exists 0%nat. cbn. rewrite app_nil_r. split; [reflexivity|lia].
      * exists 0%nat. cbn. rewrite app_nil_r. split; [reflexivity|lia].
Qed.

(** X5. [main] itself sleeps only after a transient failure, 60 seconds
    each time: the sleeps of a run are all of 60 seconds and there are at
    most as many as the upstream answered with a 500 or 503. *)
Theorem sleeps_are_sixty_per_transient_failure args script :
  exists k,
    slept (final_state (main args script)) = repeat 60 k /\
    (k <= transient_count script)%nat.
Proof.
  destruct (main_loop_slept args script (init_state args)) as (k & Hk & Hle).
  exists k. split; [exact Hk|exact Hle].
Qed.

Lemma handle_returned e s (k : state -> outcome) s' :
  (forall s0 s1, k s0 = Returned s1 ->
                 exists l, log s1 = l ++ [InfoTotal (captured s1)]) ->
  handle e s k = Returned s' ->
  exists l, log s' = l ++ [InfoTotal (captured s')].
Proof.
  intros Hk. unfold handle, finish.
  destruct (classify (str_exn e)).
  - apply Hk.
  - destruct (retries s =? max_retries).
    + intros H. inversion H. simpl_state. eauto.
    + apply Hk.
  - intros H. inversion H. simpl_state. eauto.
  - discriminate.
Qed.

(** X6. Whenever [main] returns, whether after exhaustion, a bound or a
    permanent failure, the last line it logged is the total, and the total
    is the final value of [captured]. *)
Theorem returning_run_logs_total_last args script s :
  main args script = Returned s ->
  exists l, log s = l ++ [InfoTotal (captured s)].
Proof.
  unfold main. generalize (init_state args). revert s.
  induction script as [|r script IH]; intros s s0.
  - cbn. unfold finish. destruct (finished s0); [|discriminate].
    intros H. inversion H. simpl_state. eauto.
  - rewrite main_loop_cons. unfold finish.
    destruct (finished s0); [intros H; inversion H; simpl_state; eauto|].
    destruct r as [page|msg].
    + destruct (bool_decide (page = []) || bool_decide (results s0 = page));
        [intros H; inversion H; simpl_state; eauto|].
      destruct (process_page args page (fetched page s0)) as [s1|s1|e s1].
      * apply IH.
      * apply IH.
      * apply handle_returned. intros s2 s3. apply IH.
    + apply handle_returned. intros s2 s3. apply IH.
Qed.

Lemma returning_run_logs_total_last_witness :
  let args := args_with 0 0 0 in
  let script := [Statuses [tweet 9 "Mon"; tweet 5 "Tue"];
                 Fails "Twitter API returned a 404 (Not Found), Sorry"] in
  exists l, log (final_state (main args script))
            = l ++ [InfoTotal (captured (final_state (main args script)))].
Proof.
  cbv zeta.
  apply (returning_run_logs_total_last (args_with 0 0 0)
           [Statuses [tweet 9 "Mon"; tweet 5 "Tue"];
            Fails "Twitter API returned a 404 (Not Found), Sorry"]).
  vm_compute. reflexivity.
Defined.

(** X8. With a nonzero [since_id] bound S, the loop stops as soon as the
    cursor is at or below S after a record: the rest of the page is dropped
    and no further query is issued.  While the cursor is above S, the
    condition on this bound is false. *)
Theorem since_id_bound_stops_at_or_below args st rest script s s' :
  arg_since_id args <> 0 ->
  process_status args st s = Next s' \/ process_status args st s = Break s' ->
  (max_id s' <= arg_since_id args ->
   process_page args (st :: rest) s = Break s' /\
   main_loop args script s' = finish s') /\
  (arg_since_id args < max_id s' -> cond3 args s' = false).
Proof.
  intros Hn Hflow. split.
  - intros Hle. apply body_stops; [exact Hflow|].
    assert (H3 : cond3 args s' = true).
    { unfold cond3. apply andb_true_iff. split.
      - apply negb_true_iff. apply Z.eqb_neq. exact Hn.
      - apply Z.leb_le. exact Hle. }
    rewrite H3. apply orb_true_r.
  - intros Hlt. unfold cond3. apply andb_false_iff. right.
    apply Z.leb_gt. exact Hlt.
Qed.

Lemma since_id_bound_stops_at_or_below_witness :
  let args := args_with 0 0 80 in
  exists s',
    process_page args [tweet 90 "Mon"; tweet 81 "Tue"; tweet 70 "Wed"]
                 (init_state args) = Break s' /\
    captured s' = 2 /\ max_id s' = 80 /\
    main_loop args [Statuses [tweet 60 "Thu"]] s' = finish s'.
Proof.
  cbv zeta. eexists. split; [vm_compute; reflexivity|].
  split; [reflexivity|]. split; [reflexivity|].
  refine (proj2 (proj1 (since_id_bound_stops_at_or_below (args_with 0 0 80)
            (tweet 81 "Tue") [tweet 70 "Wed"] [Statuses [tweet 60 "Thu"]]
            (flow_state (process_status (args_with 0 0 80) (tweet 90 "Mon")
                           (init_state (args_with 0 0 80))))
            _ _ _) _)).
  - discriminate.
  - right. vm_compute. reflexivity.
  - vm_compute. discriminate.
Defined.

(** ** Classifying a failure *)

Lemma prefix_append (n h : string) :
  String.prefix n h = true <-> exists post, h = n +:+ post.
Proof.
  revert h. induction n as [|a n IH]; intros h.
  - destruct h; cbn; split; eauto.
  - destruct h as [|b h]; cbn.
    + split; [discriminate|]. intros [post H]. discriminate.
    + destruct (ascii_dec a b) as [->|Hab].
      * rewrite IH. split; intros [post H]; exists post.
        -- rewrite H. reflexivity.
        -- inversion H. reflexivity.
      * split; [discriminate|]. intros [post H]. inversion H. congruence.
Qed.

Lemma contains_unfold (n h : string) :
  contains n h
  = String.prefix n h ||
    match h with EmptyString => false | String _ rest => contains n rest end.
Proof. destruct h; reflexivity. Qed.

Lemma contains_occurs (n h : string) : contains n h = true <-> occurs n h.
Proof.
  unfold occurs. split.
  - induction h as [|a h IH]; rewrite contains_unfold; intros H;
      apply orb_true_iff in H as [H|H].
    + apply prefix_append in H as [post ->]. exists EmptyString, post. reflexivity.
    + discriminate.
    + apply prefix_append in H as [post ->]. exists EmptyString, post. reflexivity.
    + destruct (IH H) as (pre & post & ->). exists (String a pre), post.
      reflexivity.
  - intros (pre & post & ->). induction pre as [|a pre IH].
    + rewrite contains_unfold. apply orb_true_iff. left.
      apply prefix_append. exists post. reflexivity.
    + rewrite contains_unfold. apply orb_true_iff. right. exact IH.
Qed.

(** X9. A failure is classified by the status phrases that occur anywhere
    in its text, in this order of precedence: rate-limited when "429 (Too
    Many Requests)" occurs; otherwise transient when "500 (Internal Server
    Error)" or "503 (Service Unavailable)" occurs; otherwise permanent when
    "401 (Unauthorized)", "403 (Forbidden)" or "404 (Not Found)" occurs;
    and unclassified, hence fatal, when none does. *)
Theorem failure_classified_by_phrase (msg : string) :
  let rate := occurs "429 (Too Many Requests)" msg in
  let transient := occurs "500 (Internal Server Error)" msg \/
                   occurs "503 (Service Unavailable)" msg in
  let permanent := occurs "401 (Unauthorized)" msg \/
                   occurs "403 (Forbidden)" msg \/
                   occurs "404 (Not Found)" msg in
  (classify msg = RateLimited <-> rate) /\
  (classify msg = Transient <-> ~ rate /\ transient) /\
  (classify msg = Permanent <-> ~ rate /\ ~ transient /\ permanent) /\
  (classify msg = Unclassified <-> ~ rate /\ ~ transient /\ ~ permanent).
Proof.
  cbv zeta. rewrite <- !contains_occurs. unfold classify.
  destruct (contains "429 (Too Many Requests)" msg);
    destruct (contains "500 (Internal Server Error)" msg);
    destruct (contains "503 (Service Unavailable)" msg);
    destruct (contains "401 (Unauthorized)" msg);
    destruct (contains "403 (Forbidden)" msg);
    destruct (contains "404 (Not Found)" msg);
    cbn; intuition congruence.
Qed.

(** ** Errors of [process_entry] *)

(** X10. [process_entry] raises on every record other than those with an
    ["id_str"] and a ["user"] object holding a ["screen_name"], and what it
    raises is decided by the first defect in the order the code reads the
    record: [KeyError] for a missing ["id_str"], then [KeyError] for a
    missing ["user"], [TypeError] for a ["user"] that is not an object (a
    null one, say), [KeyError] for a missing ["screen_name"].  When it
    succeeds the envelope's id is the ["id_str"] value itself. *)
Theorem process_entry_needs_three_keys (entry : status) :
  match process_entry entry with
  | inr v =>
    exists i u name,
      fields entry !! "id_str" = Some i /\
      user entry = Some (UserObject u) /\
      u !! "screen_name" = Some name /\ env_id v = i /\
      env_url v = "https://twitter.com/" +:+ py_str name
                  +:+ "/status/" +:+ py_str i
  | inl e =>
    (fields entry !! "id_str" = None /\ e = KeyError "id_str") \/
    (is_Some (fields entry !! "id_str") /\ user entry = None /\
     e = KeyError "user") \/
    (is_Some (fields entry !! "id_str") /\
     exists a msg, user entry = Some (UserScalar a) /\
                   e = TypeError msg /\ e = subscript_error a) \/
    (is_Some (fields entry !! "id_str") /\
     exists u, user entry = Some (UserObject u) /\
               u !! "screen_name" = None /\ e = KeyError "screen_name")
  end.
Proof.
  destruct (process_entry entry) as [e|v] eqn:Hp.
  - unfold process_entry, getitem in Hp.
    destruct (fields entry !! "id_str") as [i|] eqn:Hi.
    + destruct (user entry) as [[a|u]|] eqn:Hu.
      * inversion Hp. right. right. left. split; [eauto|].
        destruct a; cbn; eauto.
      * destruct (u !! "screen_name") as [name|] eqn:Hn; [discriminate|].
        inversion Hp. right. right. right. split; [eauto|]. exists u. auto.
      * inversion Hp. right. left. split; [eauto|]. auto.
    + inversion Hp. left. auto.
  - apply process_entry_inr in Hp as (i & u & name & Hi & Hu & Hn & ->).
    exists i, u, name. repeat split; assumption.
Qed.

Example process_entry_null_user :
  process_entry {| fields := {[ "id_str" := AStr "1" ]};
                   user := Some (UserScalar ANone) |}
  = inl (TypeError "'NoneType' object is not subscriptable").
Proof. vm_compute. reflexivity. Qed.

(** ** More on acquiring a credential *)

Lemma init_loop_failed world ids secrets fuel :
  forall pass remaining tr msg tr',
    init_loop world ids secrets fuel pass remaining tr = Failed msg tr' ->
    msg = "sleep length must be non-negative" /\ tr' <> [].
Proof.
  induction fuel as [|fuel IH]; intros pass remaining tr msg tr' H; cbn in H.
  - discriminate.
  - destruct (returned (probe_all _ _ _ _ _ _)); [discriminate|].
    destruct (remaining_after _ =? 0)%N.
    + destruct (tts_after _ <? 0).
      * inversion H. split; [reflexivity|].
        intros Hnil. apply app_eq_nil in Hnil as [_ Hnil]. discriminate.
      * exact (IH _ _ _ _ _ H).
    + exact (IH _ _ _ _ _ H).
Qed.

(** X11. [init_twitter_api] raises its [ValueError], before probing
    anything, exactly when the client id or the client secret is absent or
    an empty list.  A single string is wrapped in a list first, so a string
    is never rejected, not even the empty one. *)
Theorem missing_credentials_raise_value_error world client_id client_secret fuel :
  init_twitter_api world client_id client_secret fuel
  = Failed "Missing CLIENT_ID and CLIENT_SECRET for Twitter API authentication." []
  <-> as_list client_id = [] \/ as_list client_secret = [].
Proof.
  unfold init_twitter_api. split.
  - destruct (as_list client_id) as [|i ids]; [auto|].
    destruct (as_list client_secret) as [|x secrets]; [auto|].
    rewrite !bool_decide_eq_false_2 by discriminate. cbn [orb].
    intros H. apply init_loop_failed in H as [_ H]. contradiction.
  - intros [-> | ->].
    + reflexivity.
    + rewrite (bool_decide_eq_true_2 ([] = [])) by reflexivity.
      rewrite orb_true_r. reflexivity.
Qed.





Lemma probe_all_bounds answer n_secrets idx :
  forall remaining tts tr,
    tts_after (probe_all answer n_secrets idx remaining tts tr) <= tts /\
    (Forall within_window tr ->
     Forall within_window (events (probe_all answer n_secrets idx remaining tts tr))).
Proof.
  induction idx as [|i idx IH]; intros remaining tts tr; cbn.
  - split; [lia|auto].
  - destruct (probe_credential answer n_secrets i) as [r reset now| |msg].
    + destruct (negb (r =? 0)%N); cbn.
      * split; [lia|]. intros H. apply Forall_app. split; [exact H|].
        apply Forall_singleton. exact I.
      * destruct (Z.ltb_spec (reset - now + 1) tts) as [Hlt|Hge].
        -- destruct (IH r (reset - now + 1) tr) as [H1 H2]. split; [lia|exact H2].
        -- apply IH.
    + apply IH.
    + destruct (IH remaining tts (tr ++ [Warned msg])) as [H1 H2].
      split; [exact H1|]. intros H. apply H2. apply Forall_app.
      split; [exact H|]. apply Forall_singleton. exact I.
Qed.

(** X13. However long the script of probes, [init_twitter_api] never sleeps
    for a negative time nor for more than 900 seconds at once. *)
Theorem sleeps_stay_within_window world client_id client_secret fuel :
  Forall within_window
    (trace_of (init_twitter_api world client_id client_secret fuel)).
Proof.
  unfold init_twitter_api.
  destruct (bool_decide (as_list client_id = []) ||
            bool_decide (as_list client_secret = [])); [constructor|].
  generalize (as_list client_id) (as_list client_secret); intros ids secrets.
  assert (H : Forall within_window []) by constructor.
  revert H. generalize (@nil init_event) 0%N 0%nat.
  induction fuel as [|fuel IH]; intros tr remaining pass Htr; cbn.
  - exact Htr.
  - destruct (probe_all_bounds (world pass) (length secrets)
                (seq 0 (length ids)) remaining 900 tr) as [Hle Hev].
    specialize (Hev Htr).
    destruct (returned (probe_all _ _ _ _ _ _)); [exact Hev|].
    destruct (remaining_after _ =? 0)%N.
    + destruct (Z.ltb_spec (tts_after (probe_all (world pass) (length secrets)
                  (seq 0 (length ids)) remaining 900 tr)) 0) as [Hneg|Hpos].
      * cbn. apply Forall_app. split; [exact Hev|].
        apply Forall_singleton. exact I.
      * apply IH. apply Forall_app. split.
        -- apply Forall_app. split; [exact Hev|]. apply Forall_singleton. exact I.
        -- apply Forall_singleton. cbn. lia.
    + apply IH. exact Hev.
Qed.

Lemma probe_all_no_quota answer n_secrets idx :
  (forall i r reset now, answer i <> Quota r reset now) ->
  forall remaining tts tr,
    returned (probe_all answer n_secrets idx remaining tts tr) = None /\
    remaining_after (probe_all answer n_secrets idx remaining tts tr) = remaining /\
    tts_after (probe_all answer n_secrets idx remaining tts tr) = tts /\
    sleeps (events (probe_all answer n_secrets idx remaining tts tr)) = sleeps tr.
Proof.
  intros Hno. induction idx as [|i idx IH]; intros remaining tts tr; cbn.
  - auto.
  - unfold probe_credential. destruct (i <? n_secrets)%nat.
    + destruct (answer i) as [r reset now| |msg] eqn:Ha.
      * exfalso. exact (Hno _ _ _ _ Ha).
      * apply IH.
      * destruct (IH remaining tts (tr ++ [Warned msg])) as (H1 & H2 & H3 & H4).
        repeat split; try assumption. rewrite H4. unfold sleeps.
        rewrite omap_app. cbn. apply app_nil_r.
    + destruct (IH remaining tts (tr ++ [Warned "list index out of range"]))
        as (H1 & H2 & H3 & H4).
      repeat split; try assumption. rewrite H4. unfold sleeps.
      rewrite omap_app. cbn. apply app_nil_r.
Qed.

(** X14. Credentials that never authenticate are not fatal: while every
    probe ends in an exception, the routine neither returns nor raises; it
    logs, sleeps the full 900 seconds and starts the next pass, for as many
    passes as it is given. *)
Theorem failing_probes_wait_forever world client_id client_secret fuel :
  as_list client_id <> [] -> as_list client_secret <> [] ->
  (forall p i r reset now, world p i <> Quota r reset now) ->
  exists tr,
    init_twitter_api world client_id client_secret fuel = Waiting tr /\
    sleeps tr = repeat 900 fuel.
Proof.
  intros Hid Hsec Hno. unfold init_twitter_api.
  rewrite !bool_decide_eq_false_2 by assumption. cbn [orb].
  generalize (as_list client_id) (as_list client_secret); intros ids secrets.
  assert (Hgen : forall pass tr, exists tr',
            init_loop world ids secrets fuel pass 0%N tr = Waiting tr' /\
            sleeps tr' = sleeps tr ++ repeat 900 fuel).
  { induction fuel as [|fuel IH]; intros pass tr; cbn.
    - exists tr. rewrite app_nil_r. auto.
    - destruct (probe_all_no_quota (world pass) (length secrets)
                  (seq 0 (length ids)) (Hno pass) 0%N 900 tr)
        as (H1 & H2 & H3 & H4).
      rewrite H1, H2, H3. cbn.
      destruct (IH (S pass)
                  ((events (probe_all (world pass) (length secrets)
                      (seq 0 (length ids)) 0%N 900 tr) ++ [ZeroLeft 900])
                   ++ [Sleep 900])) as (tr' & Hrun & Hs).
      exists tr'. split; [exact Hrun|]. rewrite Hs. unfold sleeps.
      rewrite !omap_app. fold (sleeps (events (probe_all (world pass)
        (length secrets) (seq 0 (length ids)) 0%N 900 tr))).
      rewrite H4. cbn. rewrite app_nil_r, <- app_assoc. reflexivity. }
  destruct (Hgen 0%nat []) as (tr' & Hrun & Hs). exists tr'. auto.
Qed.

Lemma failing_probes_wait_forever_witness :
  let world := fun (p i : nat) =>
    match i with
    | O => OtherError "Unable to obtain OAuth 2 access token"
    | _ => RateLimitError
    end in
  exists tr,
    init_twitter_api world (CredList ["k0"; "k1"]) (CredList ["s0"; "s1"]) 3
    = Waiting tr /\
    sleeps tr = repeat 900 3.
Proof.
  cbv zeta.
  apply (failing_probes_wait_forever
           (fun (p i : nat) =>
              match i with
              | O => OtherError "Unable to obtain OAuth 2 access token"
              | _ => RateLimitError
              end)
           (CredList ["k0"; "k1"]) (CredList ["s0"; "s1"]) 3).
  - discriminate.
  - discriminate.
  - intros p i r reset now. destruct i; discriminate.
Defined.

(** X15. When every credential is exhausted and the smallest wait is
    negative, a reset time already more than a second in the past, the
    routine does not probe again: [time.sleep] refuses the negative length
    and the exception leaves [init_twitter_api]. *)
Theorem stale_reset_makes_sleep_raise world ids secrets fuel pass remaining tr :
  ids <> [] ->
  (forall i, (i < length ids)%nat -> (i < length secrets)%nat /\
     exists reset now, world pass i = Quota 0 reset now) ->
  let wait := Z.min 900 (minimum_wait (world pass) (seq 0 (length ids))) in
  wait < 0 ->
  init_loop world ids secrets (S fuel) pass remaining tr
  = Failed "sleep length must be non-negative" (tr ++ [ZeroLeft wait]).
Proof.
  intros Hne Hall wait Hw.
  assert (Hall' : forall i, i ∈ seq 0 (length ids) ->
            (i < length secrets)%nat /\
            exists reset now, world pass i = Quota 0 reset now).
  { intros i Hi. apply Hall. apply elem_of_seq in Hi. lia. }
  destruct (probe_all_exhausted (world pass) (length secrets)
              (seq 0 (length ids)) Hall' remaining 900 tr)
    as (H1 & H2 & H3 & H4); [lia|].
  cbn [init_loop]. rewrite H1, H2, H3, H4.
  assert (Hseq : seq 0 (length ids) <> []).
  { destruct ids; [contradiction|discriminate]. }
  rewrite bool_decide_eq_false_2 by exact Hseq.
  cbn [N.eqb]. fold wait.
  destruct (Z.ltb_spec wait 0) as [_|Hpos]; [reflexivity|lia].
Qed.

Lemma stale_reset_makes_sleep_raise_witness :
  let world := fun (p i : nat) => Quota 0 1000 1500 in
  init_twitter_api world (CredStr "key") (CredStr "secret") 5
  = Failed "sleep length must be non-negative" ([] ++ [ZeroLeft (-499)]).
Proof.
  cbv zeta.
  apply (stale_reset_makes_sleep_raise
           (fun (p i : nat) => Quota 0 1000 1500) ["key"] ["secret"] 4 0 0%N []).
  - discriminate.
  - intros i Hi. cbn in Hi |- *. split; [lia|]. eexists _, _. reflexivity.
  - vm_compute. reflexivity.
Defined.

(** ** The cursors of a run *)

Lemma process_page_queries args page s :
  queries (flow_state (process_page args page s)) = queries s.
Proof.
  apply (process_page_invariant args (fun s' => queries s' = queries s)
           (fun _ => True)); try (intros; assumption).
  - intros st s0 s1 _ _ H Hf. unfold forward in Hf.
    destruct (is_set (kafka_brokers args)).
    + destruct (kafka_send args st s0) as [e|s2] eqn:Hk; [discriminate|].
      apply kafka_send_inr in Hk as (key & v & -> & _).
      destruct (is_set (output_json args)); inversion Hf; simpl_state; exact H.
    + destruct (is_set (output_json args)); inversion Hf; simpl_state; exact H.
  - apply Forall_forall. auto.
  - reflexivity.
Qed.

Lemma omap_cons_Some {A B} (f : A -> option B) (x : A) (y : B) (l : list A) :
  f x = Some y -> omap f (x :: l) = y :: omap f l.
Proof. intros H. cbn. rewrite H. reflexivity. Qed.

Lemma pages_all_processed args pages :
  forall s0 s,
    finished s0 = false ->
    main_loop args (map Statuses pages) s0 = Pending s ->
    queries s ++ [max_id s]
    = queries s0 ++ max_id s0 :: omap cursor_after pages /\
    length (omap cursor_after pages) = length pages.
Proof.
  induction pages as [|page pages IH]; intros s0 s Hf H.
  - cbn in H. rewrite Hf in H. inversion H. auto.
  - cbn [map] in H. rewrite main_loop_cons, Hf in H.
    destruct (bool_decide (page = [])) eqn:Hempty; [discriminate|].
    apply bool_decide_eq_false in Hempty.
    destruct (bool_decide (results s0 = page)); [discriminate|].
    cbn [orb] in H.
    pose proof (process_page_queries args page (fetched page s0)) as Hq.
    destruct (process_page args page (fetched page s0)) as [s1|s1|e s1] eqn:Hp;
      cbn in Hq.
    + destruct (process_page_frame args page _ _ Hp) as [Hf1 _].
      destruct (process_page_cursor args page _ _ Hempty Hp)
        as (st & n & Hl & Hid & Hm).
      destruct (IH s1 s) as [Hseq Hlen]; [rewrite Hf1; exact Hf|exact H|].
      assert (Hc : cursor_after page = Some (max_id s1)).
      { unfold cursor_after. rewrite Hl, Hid, Hm. reflexivity. }
      rewrite (omap_cons_Some cursor_after page (max_id s1) pages Hc).
      cbn [length]. split; [|lia].
      rewrite Hseq, Hq. unfold fetched. simpl_state.
      rewrite <- app_assoc. reflexivity.
    + rewrite main_loop_finished in H; [discriminate|].
      clear -Hp. revert Hp. generalize (fetched page s0).
      induction page as [|st rest IHp]; intros s2 Hp; cbn in Hp; [discriminate|].
      destruct (process_status args st s2) as [s3|s3|e s3] eqn:Hs.
      * exact (IHp _ Hp).
      * inversion Hp; subst.
        destruct (process_status_inv args st s2)
          as [(e & s4 & He & _)|(s4 & Hs4 & _)]; [congruence|].
        rewrite Hs4 in Hs. apply check_limits_break in Hs as (-> & _).
        reflexivity.
      * discriminate.
    + unfold handle in H.
      rewrite (record_errors_unclassified e (process_page_raises _ _ _ _ _ Hp)) in H.
      discriminate.
Qed.

(** X16. In a run that is answered with pages only and is still going
    after the last of them, every page was processed to its end, and the
    cursors follow one another: the first query carries the configured
    [max_id], each later query the id of the last record of the page before
    it minus one, and the cursor left for the next query is that of the
    last page. *)
Theorem queries_follow_last_records args pages s :
  main args (map Statuses pages) = Pending s ->
  queries s ++ [max_id s] = arg_max_id args :: omap cursor_after pages /\
  length (omap cursor_after pages) = length pages.
Proof.
  unfold main. intros H.
  destruct (pages_all_processed args pages (init_state args) s) as [Hq Hl];
    [reflexivity|exact H|].
  split; [exact Hq|exact Hl].
Qed.

Lemma queries_follow_last_records_witness :
  let args := args_with 0 1000 0 in
  let pages := [[tweet 900 "Mon"; tweet 850 "Tue"]; [tweet 840 "Wed"];
                [tweet 700 "Thu"; tweet 650 "Fri"]] in
  queries (final_state (main args (map Statuses pages)))
    ++ [max_id (final_state (main args (map Statuses pages)))]
  = [1000; 849; 839; 649].
Proof.
  cbv zeta.
  refine (proj1 (queries_follow_last_records (args_with 0 1000 0)
            [[tweet 900 "Mon"; tweet 850 "Tue"]; [tweet 840 "Wed"];
             [tweet 700 "Thu"; tweet 650 "Fri"]] _ _)).
  vm_compute. reflexivity.
Defined.
